(** * BigQuery table-usage extractor

    A shallow embedding of
    [databuilder/extractor/bigquery_usage_extractor.py] and the properties
    of its aggregation pipeline: the paginator [_page_over_results], the
    record stream [_retrieve_records], the fold [_count_usage] and the
    pull interface [extract]. *)

From Stdlib Require Import Ascii String ZArith.
From stdpp Require Import base option list gmap strings fin_maps.

Set Warnings "-register-all".
Local Open Scope string_scope.
Local Open Scope Z_scope.

(** ** Python values and exceptions *)

(** A decoded JSON document, as the logging client hands it over: [None],
    [bool], [int], [str], [list] and [dict] with string keys. A [JObj]
    lists the items of a dict; a key bound twice reads as its first
    binding. Numbers are integers. *)
Inductive json : Type :=
| JNull
| JBool (b : bool)
| JNum (n : Z)
| JStr (s : string)
| JList (l : list json)
| JObj (kvs : list (string * json)).

(** The exceptions the extractor can meet. [re_error] is [re.error];
    [HttpError] stands for whatever the transport raises. *)
Inductive exn : Set :=
| KeyError | TypeError | AttributeError | ZeroDivisionError
| re_error | HttpError.

Inductive result (A : Type) : Type :=
| Ok (a : A)
| Raise (e : exn).
Arguments Ok {A} a.
Arguments Raise {A} e.

#[global] Instance result_ret : MRet result := λ A a, Ok a.
#[global] Instance result_bind : MBind result :=
  λ A B f r, match r with Ok a => f a | Raise e => Raise e end.

Module Py.

Fixpoint assoc (k : string) (kvs : list (string * json)) : option json :=
  match kvs with
  | [] => None
  | (k', v) :: kvs' => if decide (k' = k) then Some v else assoc k kvs'
  end.

Definition keys (kvs : list (string * json)) : list string :=
  remove_dups (kvs.*1).

Fixpoint chars (s : string) : list string :=
  match s with
  | EmptyString => []
  | String c s' => String c EmptyString :: chars s'
  end.

(** [v[k]] with a string subscript. *)
Definition getitem (v : json) (k : string) : result json :=
  match v with
  | JObj kvs =>
      match assoc k kvs with Some x => Ok x | None => Raise KeyError end
  | _ => Raise TypeError
  end.

(** [v[k1][k2]...[kn]], left to right. *)
Definition subscripts (v : json) (ks : list string) : result json :=
  foldl (λ r k, x ← r; getitem x k) (Ok v) ks.

(** [v.get(k, default)]: only a dict has the method. *)
Definition get (v : json) (k : string) (dflt : json) : result json :=
  match v with
  | JObj kvs => Ok (default dflt (assoc k kvs))
  | _ => Raise AttributeError
  end.

(** [len(v)] *)
Definition len (v : json) : result Z :=
  match v with
  | JObj kvs => Ok (Z.of_nat (length (keys kvs)))
  | JList l => Ok (Z.of_nat (length l))
  | JStr s => Ok (Z.of_nat (String.length s))
  | _ => Raise TypeError
  end.

(** Truth value, as tested by [if v], [if not v]. *)
Definition truthy (v : json) : bool :=
  match v with
  | JNull => false
  | JBool b => b
  | JNum n => negb (n =? 0)
  | JStr s => negb (String.eqb s "")
  | JList l => match l with [] => false | _ => true end
  | JObj kvs => match kvs with [] => false | _ => true end
  end.

(** The sequence [for x in v] runs over. *)
Definition iter (v : json) : result (list json) :=
  match v with
  | JList l => Ok l
  | JObj kvs => Ok (JStr <$> keys kvs)
  | JStr s => Ok (JStr <$> chars s)
  | _ => Raise TypeError
  end.

(** [v != s] for a string literal [s]. *)
Definition ne_str (v : json) (s : string) : bool :=
  match v with
  | JStr s' => negb (String.eqb s' s)
  | _ => true
  end.

(** [n != v] for an int [n]; [True == 1] and [False == 0]. *)
Definition int_ne (n : Z) (v : json) : bool :=
  match v with
  | JNum m => negb (n =? m)
  | JBool b => negb (n =? Z.b2z b)
  | _ => true
  end.

(** [a % b] on ints: the sign follows the divisor, as [Z.modulo]. *)
Definition mod_ (a b : Z) : result Z :=
  if b =? 0 then Raise ZeroDivisionError else Ok (a `mod` b).

End Py.

(** ** Regular expressions

    [re.match(pattern, string)] belongs to Python's library. Its compiler
    from pattern text is taken as an interface, [Re.Compiler]; a compiled
    pattern is a regular expression, and matching is modelled here by
    derivatives. *)
Module Re.

Inductive regex : Type :=
| Void
| Eps
| Chr (c : ascii)
| AnyChr
| Alt (r1 r2 : regex)
| Cat (r1 r2 : regex)
| Star (r : regex).

(** The words a pattern accepts in full. *)
Inductive lang : regex → list ascii → Prop :=
| lang_eps : lang Eps []
| lang_chr c : lang (Chr c) [c]
| lang_any c : lang AnyChr [c]
| lang_alt_l r1 r2 w : lang r1 w → lang (Alt r1 r2) w
| lang_alt_r r1 r2 w : lang r2 w → lang (Alt r1 r2) w
| lang_cat r1 r2 w1 w2 : lang r1 w1 → lang r2 w2 → lang (Cat r1 r2) (w1 ++ w2)
| lang_star_nil r : lang (Star r) []
| lang_star_app r w1 w2 :
    lang r w1 → lang (Star r) w2 → lang (Star r) (w1 ++ w2).

Fixpoint nullable (r : regex) : bool :=
  match r with
  | Void | Chr _ | AnyChr => false
  | Eps | Star _ => true
  | Alt r1 r2 => nullable r1 || nullable r2
  | Cat r1 r2 => nullable r1 && nullable r2
  end.

Fixpoint deriv (c : ascii) (r : regex) : regex :=
  match r with
  | Void | Eps => Void
  | Chr c' => if decide (c' = c) then Eps else Void
  | AnyChr => Eps
  | Alt r1 r2 => Alt (deriv c r1) (deriv c r2)
  | Cat r1 r2 =>
      if nullable r1 then Alt (Cat (deriv c r1) r2) (deriv c r2)
      else Cat (deriv c r1) r2
  | Star r' => Cat (deriv c r') (Star r')
  end.

(** Does the pattern accept the whole word ([re.fullmatch])? *)
Fixpoint fullmatch_word (r : regex) (w : list ascii) : bool :=
  match w with
  | [] => nullable r
  | c :: w' => fullmatch_word (deriv c r) w'
  end.

(** Does the pattern accept some leading part of the word ([re.match])? *)
Fixpoint match_word (r : regex) (w : list ascii) : bool :=
  nullable r ||
  match w with
  | [] => false
  | c :: w' => match_word (deriv c r) w'
  end.

Class Compiler := compile : string → option regex.

(** [re.match(pattern, s)], read for its truth value: the pattern is
    compiled first, then the subject must be a [str]. *)
Definition match_ `{Compiler} (pattern : string) (s : json) : result bool :=
  match compile pattern with
  | None => Raise re_error
  | Some r =>
      match s with
      | JStr s => Ok (match_word r (list_ascii_of_string s))
      | _ => Raise TypeError
      end
  end.

(** A compiler for patterns without metacharacters, where [.] stands for
    any character: enough to run the extractor on examples. *)
Fixpoint literal (w : list ascii) : regex :=
  match w with
  | [] => Eps
  | c :: w' => Cat (if decide (c = "."%char) then AnyChr else Chr c) (literal w')
  end.

Definition literal_compiler : Compiler :=
  λ pattern, Some (literal (list_ascii_of_string pattern)).

End Re.

(** ** Usage keys and the usage-count dict *)

Record TableColumnUsageTuple : Type := {
  database : json;
  cluster : json;
  schema : json;
  table : json;
  column : json;
  email : json
}.

(** What [hash] and [==] see of a hashable JSON value: [True] and [1] are
    the same dict key, as are [False] and [0]. *)
Inductive pyhash : Set :=
| HNone
| HInt (n : Z)
| HStr (s : string).

#[global] Instance pyhash_eq_dec : EqDecision pyhash.
Proof. solve_decision. Defined.

#[global] Instance pyhash_countable : Countable pyhash.
Proof.
  refine (inj_countable'
            (λ h, match h with
                  | HNone => inl ()
                  | HInt n => inr (inl n)
                  | HStr s => inr (inr s)
                  end)
            (λ x, match x with
                  | inl _ => HNone
                  | inr (inl n) => HInt n
                  | inr (inr s) => HStr s
                  end) _).
  by intros [].
Defined.

Definition py_hash (v : json) : result pyhash :=
  match v with
  | JNull => Ok HNone
  | JBool b => Ok (HInt (Z.b2z b))
  | JNum n => Ok (HInt n)
  | JStr s => Ok (HStr s)
  | JList _ | JObj _ => Raise TypeError
  end.

(** The hash of a tuple hashes its fields in order. *)
Definition hash_key (k : TableColumnUsageTuple) : result (list pyhash) :=
  d ← py_hash (database k);
  c ← py_hash (cluster k);
  s ← py_hash (schema k);
  t ← py_hash (table k);
  l ← py_hash (column k);
  e ← py_hash (email k);
  mret [d; c; s; t; l; e].

(** A dict from usage keys to counts: a finite map from a key's hash class
    to the key object first stored under it and its current value. *)
Abbreviation dict := (gmap (list pyhash) (TableColumnUsageTuple * Z)).

Module Dict.

(** [d.get(key, default)] *)
Definition get (d : dict) (key : TableColumnUsageTuple) (dflt : Z) : result Z :=
  h ← hash_key key;
  mret (default dflt (snd <$> d !! h)).

(** [d[key]] *)
Definition getitem (d : dict) (key : TableColumnUsageTuple) : result Z :=
  h ← hash_key key;
  match d !! h with
  | Some (_, v) => Ok v
  | None => Raise KeyError
  end.

(** [d[key] = v]: an existing entry keeps its key object. *)
Definition setitem (d : dict) (key : TableColumnUsageTuple) (v : Z) : result dict :=
  h ← hash_key key;
  mret (<[h := (default key (fst <$> d !! h), v)]> d).

(** The (key, value) pairs of a dict, in the order it enumerates
    them. *)
Definition items (d : dict) : list (TableColumnUsageTuple * Z) :=
  (map_to_list d).*2.

(** [iter(d)]: the keys, in the same order. *)
Definition iter (d : dict) : list TableColumnUsageTuple :=
  (items d).*1.

(** The mapping a dict denotes, from key classes to counts. *)
Definition counts (d : dict) : gmap (list pyhash) Z := snd <$> d.

(** Sum of all stored counts. *)
Definition total (d : dict) : Z :=
  map_fold (λ _ kv acc, kv.2 + acc) 0 d.

End Dict.

(** ** The aggregator: [_count_usage] *)

(** The attributes of [self] that [init] reads from the configuration and
    from the base extractor, fixed for a run. [email_pattern] is [None]
    when the configuration has none. *)
Record Conf : Type := {
  project_id : string;
  pagesize : Z;
  timestamp : string;
  email_pattern : option string;
  delay_time : Z
}.

(** Records handed to [LOGGER]: [Info n] is 'Aggregated n records',
    [Warn id] is 'The number of tables listed in job id is not
    consistent'. *)
Inductive log_record : Type :=
| Info (n : Z)
| Warn (job_id : json).

(** What the loop of [_count_usage] updates: its local [count], the dict
    [self.table_usage_counts] and the log. *)
Record Env : Type := {
  count : Z;
  table_usage_counts : dict;
  LOGGER : list log_record
}.

(** How a loop body ends: it falls through, executes [continue], or
    raises. *)
Inductive flow (A : Type) : Type :=
| Next (a : A)
| Continue
| Raised (e : exn).
Arguments Next {A} a.
Arguments Continue {A}.
Arguments Raised {A} e.

Definition M (A : Type) : Type := Env → Env * flow A.

#[global] Instance M_ret : MRet M := λ A a s, (s, Next a).
#[global] Instance M_bind : MBind M :=
  λ A B f m s,
    match m s with
    | (s', Next a) => f a s'
    | (s', Continue) => (s', Continue)
    | (s', Raised e) => (s', Raised e)
    end.

Definition lift {A} (r : result A) : M A :=
  λ s, (s, match r with Ok a => Next a | Raise e => Raised e end).

Definition continue {A} : M A := λ s, (s, Continue).

Definition pass : M unit := mret ().

(** [try: m except Exception: handler] *)
Definition try_except {A} (m handler : M A) : M A :=
  λ s, match m s with
       | (s', Raised _) => handler s'
       | out => out
       end.

(** [for x in xs: body]: [continue] goes on with the next element, an
    exception leaves the loop. *)
Fixpoint for_ {A} (xs : list A) (body : A → M unit) : M unit :=
  match xs with
  | [] => mret ()
  | x :: xs' =>
      λ s, match body x s with
           | (s', Raised e) => (s', Raised e)
           | (s', _) => for_ xs' body s'
           end
  end.

Definition incr_count : M Z :=
  λ s, let c := count s + 1 in
       ({| count := c; table_usage_counts := table_usage_counts s;
           LOGGER := LOGGER s |}, Next c).

Definition log (r : log_record) : M unit :=
  λ s, ({| count := count s; table_usage_counts := table_usage_counts s;
           LOGGER := (LOGGER s ++ [r])%list |}, Next ()).

(** [self.table_usage_counts.get(key, dflt)] *)
Definition usage_get (key : TableColumnUsageTuple) (dflt : Z) : M Z :=
  λ s, lift (Dict.get (table_usage_counts s) key dflt) s.

Definition with_usage (s : Env) (d : dict) : Env :=
  {| count := count s; table_usage_counts := d; LOGGER := LOGGER s |}.

(** [self.table_usage_counts[key] = v] *)
Definition usage_set (key : TableColumnUsageTuple) (v : Z) : M unit :=
  λ s, match Dict.setitem (table_usage_counts s) key v with
       | Ok d => (with_usage s d, Next ())
       | Raise e => (s, Raised e)
       end.

Section count_usage.
Context `{Re.Compiler} (self : Conf).

(** The body of [for refTable in refTables]. *)
Definition count_table (email refTable : json) : M unit :=
  project ← lift (Py.getitem refTable "projectId");
  dataset ← lift (Py.getitem refTable "datasetId");
  tbl ← lift (Py.getitem refTable "tableId");
  let key := {| database := JStr "bigquery"; cluster := project;
                schema := dataset; table := tbl;
                column := JStr "*"; email := email |} in
  new_count ← (c ← usage_get key 0; mret (c + 1));
  usage_set key new_count.

(** [if self.email_pattern: if not re.match(...): continue] *)
Definition email_filter (email : json) : M unit :=
  match email_pattern self with
  | Some pattern =>
      if String.eqb pattern "" then pass
      else
        m ← lift (Re.match_ pattern email);
        if m : bool then pass else continue
  | None => pass
  end.

(** The body of [for entry in self._retrieve_records()], from the [try]
    on: the filtering pipeline and the counting of the tables. *)
Definition count_entry (entry : json) : M unit :=
  job ← try_except
           (lift (Py.subscripts entry
                    ["protoPayload"; "serviceData"; "jobCompletedEvent"; "job"]))
           continue;
  state ← lift (Py.subscripts job ["jobStatus"; "state"]);
  if Py.ne_str state "DONE" then continue else
  jobStatus ← lift (Py.getitem job "jobStatus");
  error ← lift (Py.get jobStatus "error" (JObj []));
  nerr ← lift (Py.len error);
  if 0 <? nerr then continue else
  email ← lift (Py.subscripts entry
                  ["protoPayload"; "authenticationInfo"; "principalEmail"]);
  jobStatistics ← lift (Py.getitem job "jobStatistics");
  refTables ← lift (Py.get jobStatistics "referencedTables" JNull);
  if negb (Py.truthy refTables) then continue else
  email_filter email;;
  numTablesProcessed ← lift (Py.subscripts job ["jobStatistics"; "totalTablesProcessed"]);
  n ← lift (Py.len refTables);
  (if Py.int_ne n numTablesProcessed
   then job_id ← lift (Py.subscripts job ["jobName"; "jobId"]);
        log (Warn job_id)
   else pass);;
  tables ← lift (Py.iter refTables);
  for_ tables (count_table email).

(** The whole body: the record is counted in, every [pagesize]-th one
    is reported, then the entry is processed. *)
Definition loop_body (entry : json) : M unit :=
  c ← incr_count;
  r ← lift (Py.mod_ c (pagesize self));
  (if r =? 0 then log (Info c) else pass);;
  count_entry entry.

(** [_count_usage], given the records [self._retrieve_records()]
    yields. *)
Definition count_records (records : list json) : M unit :=
  for_ records loop_body.

End count_usage.

(** ** The paginator: [_page_over_results] and [_retrieve_records] *)

Module Logging.

(** The request body of [entries().list]. *)
Record Body : Type := {
  resourceNames : list string;
  pageSize : Z;
  filter : string;
  pageToken : option string
}.

(** A response dict, read for the two keys the paginator looks at. A
    response with neither key, the empty dict included, ends the
    pagination without being yielded. *)
Record Response : Type := {
  entries : option (list json);
  nextPageToken : option string
}.

(** What the run does to the outside, oldest first. *)
Inductive event : Type :=
| Request (body : Body)
| Sleep (seconds : Z).

(** [logging_service.entries().list(body=body).execute(num_retries=...)]:
    the outcome of a call is some function of the request and of all
    that happened before it. *)
Definition Service : Type := list event → Body → result Response.

End Logging.

Definition set_pageToken (body : Logging.Body) (tok : string) : Logging.Body :=
  {| Logging.resourceNames := Logging.resourceNames body;
     Logging.pageSize := Logging.pageSize body;
     Logging.filter := Logging.filter body;
     Logging.pageToken := Some tok |}.

Definition dquote : string := String "034"%char EmptyString.

Section paging.
Context (logging_service : Logging.Service) (self : Conf).

Definition execute (body : Logging.Body) (t : list Logging.event)
  : list Logging.event * result Logging.Response :=
  ((t ++ [Logging.Request body])%list, logging_service t body).

Definition sleep (seconds : Z) (t : list Logging.event) : list Logging.event :=
  (t ++ [Logging.Sleep seconds])%list.

(** The [while response:] loop, by the pages it yields. [response] is
    [None] once the loop has assigned [None] to it. One unit of fuel is
    one turn of the loop. *)
Fixpoint page_loop (fuel : nat) (body : Logging.Body)
    (response : option Logging.Response) (t : list Logging.event)
  : option (list Logging.event * list Logging.Response) :=
  match fuel with
  | O => None
  | S fuel' =>
      match response with
      | None => Some (t, [])
      | Some r =>
          let yielded :=
            match Logging.entries r with Some _ => [r] | None => [] end in
          let '(t', body', response') :=
            match Logging.nextPageToken r with
            | Some tok =>
                let body' := set_pageToken body tok in
                match execute body' t with
                | (t', Ok r') => (t', body', Some r')
                | (t', Raise _) => (sleep (delay_time self) t', body', Some r)
                end
            | None => (t, body, None)
            end in
          '(t'', pages) ← page_loop fuel' body' response' t';
          Some (t'', (yielded ++ pages)%list)
      end
  end.

(** The generator [_page_over_results(body)], drained: the events, the
    pages yielded and the exception that ended it, if one did. The
    first request is outside the [try]. *)
Definition _page_over_results (fuel : nat) (body : Logging.Body)
    (t : list Logging.event)
  : option (list Logging.event * list Logging.Response * option exn) :=
  match execute body t with
  | (t', Raise e) => Some (t', [], Some e)
  | (t', Ok r) =>
      '(t'', pages) ← page_loop fuel body (Some r) t';
      Some (t'', pages, None)
  end.

Definition request_body : Logging.Body :=
  {| Logging.resourceNames := ["projects/" +:+ project_id self];
     Logging.pageSize := pagesize self;
     Logging.filter :=
       "resource.type=" +:+ dquote +:+ "bigquery_resource" +:+ dquote +:+
       " AND protoPayload.methodName=" +:+ dquote +:+
       "jobservice.jobcompleted" +:+ dquote +:+
       " AND timestamp >= " +:+ dquote +:+ timestamp self +:+ dquote;
     Logging.pageToken := None |}.

(** The generator [_retrieve_records()], drained: every entry of every
    page yielded, in order. *)
Definition _retrieve_records (fuel : nat) (t : list Logging.event)
  : option (list Logging.event * list json * option exn) :=
  '(t', pages, e) ← _page_over_results fuel request_body t;
  Some (t', flat_map (λ page, default [] (Logging.entries page)) pages, e).

Context `{Re.Compiler}.

(** [_count_usage()], started on the dict [d]: the loop runs over the
    records of the drained generator; an exception of the first request
    reaches the caller before any record is seen. The result is [None]
    when the fuel does not suffice to drain the generator. The events are
    those of a full drain: when a record raises, the code has not sent the
    requests for the pages after that record's. *)
Definition _count_usage (fuel : nat) (t : list Logging.event) (d : dict)
  : option (list Logging.event * Env * flow unit) :=
  '(t', records, e) ← _retrieve_records fuel t;
  let s := {| count := 0; table_usage_counts := d; LOGGER := [] |} in
  match e with
  | Some e => Some (t', s, Raised e)
  | None =>
      let '(s', out) := count_records self records s in
      Some (t', s', out)
  end.

End paging.

(** ** The extractor object: [init] and [extract] *)

Module Self.
(** The attributes [init] leaves on [self] for [extract]: the dict and
    the key iterator over it, as the keys it has yet to produce. *)
Record t : Type := {
  table_usage_counts : dict;
  iter : list TableColumnUsageTuple
}.
End Self.

(** [init(conf)], with the attributes already read from [conf]. *)
Definition init `{Re.Compiler} (logging_service : Logging.Service) (self : Conf)
    (fuel : nat) (t : list Logging.event)
  : option (list Logging.event * result Self.t) :=
  '(t', s, out) ← _count_usage logging_service self fuel t ∅;
  Some (t', match out with
            | Raised e => Raise e
            | _ => Ok {| Self.table_usage_counts := table_usage_counts s;
                         Self.iter := Dict.iter (table_usage_counts s) |}
            end).

(** [extract()]: [StopIteration] is the only exception caught. *)
Definition extract (self : Self.t)
  : Self.t * result (option (TableColumnUsageTuple * Z)) :=
  match Self.iter self with
  | [] => (self, Ok None)
  | key :: rest =>
      ({| Self.table_usage_counts := Self.table_usage_counts self;
          Self.iter := rest |},
       v ← Dict.getitem (Self.table_usage_counts self) key;
       mret (Some (key, v)))
  end.

(** [n] calls of [extract()] in a row, with what each returned. *)
Fixpoint extract_calls (n : nat) (self : Self.t)
  : Self.t * list (result (option (TableColumnUsageTuple * Z))) :=
  match n with
  | O => (self, [])
  | S n' =>
      let '(self1, r) := extract self in
      let '(self2, rs) := extract_calls n' self1 in
      (self2, r :: rs)
  end.

(** ** Sample log entries and services *)

Module Sample.

Definition table_ref (project dataset tbl : string) : json :=
  JObj [("projectId", JStr project); ("datasetId", JStr dataset);
        ("tableId", JStr tbl)].

Definition job (job_id : string) (status statistics : json) : json :=
  JObj [("jobName", JObj [("jobId", JStr job_id)]);
        ("jobStatus", status);
        ("jobStatistics", statistics)].

Definition entry_of (principal : string) (job : json) : json :=
  JObj [("protoPayload",
         JObj [("authenticationInfo", JObj [("principalEmail", JStr principal)]);
               ("serviceData",
                JObj [("jobCompletedEvent", JObj [("job", job)])])])].

Definition done : json := JObj [("state", JStr "DONE")].

Definition statistics (tables : list json) (total : Z) : json :=
  JObj [("referencedTables", JList tables); ("totalTablesProcessed", JNum total)].

Definition t1 : json := table_ref "proj" "ds" "t1".
Definition t2 : json := table_ref "proj" "ds" "t2".

Definition alice : json :=
  entry_of "alice@co" (job "job_a" done (statistics [t1] 1)).
Definition bob : json :=
  entry_of "bob@co" (job "job_b" done (statistics [t1] 1)).
Definition carol : json :=
  entry_of "carol@co" (job "job_c" done (statistics [t1; t2] 2)).

(** One table listed, two reported as processed. *)
Definition short_list : json :=
  entry_of "alice@co" (job "job_s" done (statistics [t1] 2)).

(** A job-completion entry whose job carries no [jobStatus]. *)
Definition no_status : json :=
  entry_of "alice@co" (JObj [("jobStatistics", statistics [t1] 1)]).

(** An entry of another kind: no [serviceData] at all. *)
Definition unrelated : json :=
  JObj [("protoPayload", JObj [("methodName", JStr "other")])].

Definition conf : Conf :=
  {| project_id := "proj"; pagesize := 10; timestamp := "2019-01-01T00:00:00Z";
     email_pattern := None; delay_time := 100 |}.

Definition conf_alice : Conf :=
  {| project_id := "proj"; pagesize := 10; timestamp := "2019-01-01T00:00:00Z";
     email_pattern := Some "alice"; delay_time := 100 |}.

Definition key (principal tbl : string) : TableColumnUsageTuple :=
  {| database := JStr "bigquery"; cluster := JStr "proj"; schema := JStr "ds";
     table := JStr tbl; column := JStr "*"; email := JStr principal |}.

Definition page1 : Logging.Response :=
  {| Logging.entries := Some [alice]; Logging.nextPageToken := Some "p2" |}.
Definition page2 : Logging.Response :=
  {| Logging.entries := Some [bob]; Logging.nextPageToken := Some "p3" |}.
Definition page3 : Logging.Response :=
  {| Logging.entries := Some [carol]; Logging.nextPageToken := None |}.

Definition requests_for (tok : string) (t : list Logging.event) : nat :=
  length (List.filter
            (λ ev, match ev with
                   | Logging.Request b =>
                       bool_decide (Logging.pageToken b = Some tok)
                   | _ => false
                   end) t).

(** Three pages; the first request for page 3 fails, the next one
    succeeds. *)
Definition flaky_service : Logging.Service :=
  λ t body,
    match Logging.pageToken body with
    | None => Ok page1
    | Some tok =>
        if String.eqb tok "p2" then Ok page2
        else if String.eqb tok "p3" then
          match requests_for "p3" t with
          | O => Raise HttpError
          | _ => Ok page3
          end
        else Raise HttpError
    end.

(** The same three pages from a service that never fails. *)
Definition steady_service : Logging.Service :=
  λ t body,
    match Logging.pageToken body with
    | None => Ok page1
    | Some tok =>
        if String.eqb tok "p2" then Ok page2
        else if String.eqb tok "p3" then Ok page3
        else Raise HttpError
    end.

Definition start : Env :=
  {| count := 0; table_usage_counts := ∅; LOGGER := [] |}.

(** What a run against [steady_service] sends, and what it builds. *)
Definition requests (self : Conf) : list Logging.event :=
  [Logging.Request (request_body self);
   Logging.Request (set_pageToken (request_body self) "p2");
   Logging.Request (set_pageToken (request_body self) "p3")].

Definition built : Env :=
  (count_records (H := Re.literal_compiler) conf [alice; bob; carol] start).1.

Definition extractor : Self.t :=
  {| Self.table_usage_counts := table_usage_counts built;
     Self.iter := Dict.iter (table_usage_counts built) |}.

End Sample.

(** ** Vocabulary of the properties *)

(** One more usage of the key class [h] in a mapping from key classes to
    counts. *)
Definition bump (h : list pyhash) (m : gmap (list pyhash) Z) : gmap (list pyhash) Z :=
  <[h := default 0 (m !! h) + 1]> m.

(** One usage-count increment of [key] in a dict: what
    [d[key] = d.get(key, 0) + 1] leaves, for a hashable key. *)
Definition increment (d : dict) (key : TableColumnUsageTuple) : dict :=
  match hash_key key with
  | Ok h => <[h := (default key (fst <$> d !! h), default 0 (snd <$> d !! h) + 1)]> d
  | Raise _ => d
  end.

(** The environment once an entry has been counted in and the progress
    message written, if one is due. *)
Definition progress (self : Conf) (s : Env) : Env :=
  let c := count s + 1 in
  {| count := c; table_usage_counts := table_usage_counts s;
     LOGGER := (LOGGER s ++
                if c `mod` pagesize self =? 0 then [Info c] else [])%list |}.

(** The environment with more records written to the log. *)
Definition logged (records : list log_record) (s : Env) : Env :=
  {| count := count s; table_usage_counts := table_usage_counts s;
     LOGGER := (LOGGER s ++ records)%list |}.

(** Every key object is stored under its own key class. *)
Definition well_keyed (d : dict) : Prop :=
  map_Forall (λ h kv, hash_key kv.1 = Ok h) d.

(** The nested fields the pipeline expects of a job-completion entry, as
    paths from the entry. *)
Definition expected_fields : list (list string) :=
  [["protoPayload"; "serviceData"; "jobCompletedEvent"; "job"; "jobStatus"; "state"];
   ["protoPayload"; "authenticationInfo"; "principalEmail"];
   ["protoPayload"; "serviceData"; "jobCompletedEvent"; "job"; "jobStatistics";
    "totalTablesProcessed"]].

(** Every stored count is strictly positive. *)
Definition positive_counts (d : dict) : Prop :=
  map_Forall (λ _ kv, 0 < kv.2) d.

(** The key built from a referenced table and the principal. *)
Definition usage_key (principal : string) (ref : string * string * string)
  : TableColumnUsageTuple :=
  {| database := JStr "bigquery"; cluster := JStr ref.1.1; schema := JStr ref.1.2;
     table := JStr ref.2; column := JStr "*"; email := JStr principal |}.

(** The key [count_table] builds from a referenced table, when the table
    carries the three identifiers. *)
Definition table_key (email refTable : json) : result TableColumnUsageTuple :=
  project ← Py.getitem refTable "projectId";
  dataset ← Py.getitem refTable "datasetId";
  tbl ← Py.getitem refTable "tableId";
  mret {| database := JStr "bigquery"; cluster := project; schema := dataset;
          table := tbl; column := JStr "*"; email := email |}.

(** The keys the loop over the referenced tables counts, in order, and
    the exception that stops it, if a table lacks an identifier or its key
    cannot be hashed. *)
Fixpoint counted_keys (email : json) (tables : list json)
  : list TableColumnUsageTuple * option exn :=
  match tables with
  | [] => ([], None)
  | refTable :: tables' =>
      match key ← table_key email refTable; _ ← hash_key key; mret key with
      | Ok key =>
          let '(keys, e) := counted_keys email tables' in (key :: keys, e)
      | Raise e => ([], Some e)
      end
  end.

(** A referenced table with string identifiers. *)
Definition table_names (refTable : json) (ref : string * string * string) : Prop :=
  Py.getitem refTable "projectId" = Ok (JStr ref.1.1) ∧
  Py.getitem refTable "datasetId" = Ok (JStr ref.1.2) ∧
  Py.getitem refTable "tableId" = Ok (JStr ref.2).

(** The principal's email begins with a word of the pattern. *)
Definition leading_match (r : Re.regex) (s : string) : Prop :=
  ∃ p q, list_ascii_of_string s = (p ++ q)%list ∧ Re.lang r p.

(** The warning about an entry that lists [n] tables and reports [total]
    as processed: none when the two agree. *)
Definition mismatch_warning (entry : json) (n : Z) (total : json)
  : list log_record :=
  if Py.int_ne n total then
    match Py.subscripts entry
            ["protoPayload"; "serviceData"; "jobCompletedEvent"; "job";
             "jobName"; "jobId"] with
    | Ok job_id => [Warn job_id]
    | Raise _ => []
    end
  else [].

(** An entry that is navigable wherever the pipeline reads it and
    describes a finished job without errors that read the tables [refs],
    [total] being its [totalTablesProcessed]. The job's id is read only
    when the number of tables differs from [total]. *)
Inductive eligible (entry : json) (principal : string)
    (refs : list (string * string * string)) (total : json) : Prop :=
| Eligible (job status statistics : json) (tables : list json)
    (Hjob : Py.subscripts entry
              ["protoPayload"; "serviceData"; "jobCompletedEvent"; "job"] = Ok job)
    (Hstatus : Py.getitem job "jobStatus" = Ok status)
    (Hstate : Py.getitem status "state" = Ok (JStr "DONE"))
    (Herror : (error ← Py.get status "error" (JObj []); Py.len error) = Ok 0)
    (Hemail : Py.subscripts entry
                ["protoPayload"; "authenticationInfo"; "principalEmail"]
              = Ok (JStr principal))
    (Hstatistics : Py.getitem job "jobStatistics" = Ok statistics)
    (Hrefs : Py.getitem statistics "referencedTables" = Ok (JList tables))
    (Htotal : Py.getitem statistics "totalTablesProcessed" = Ok total)
    (Hid : Py.int_ne (Z.of_nat (length refs)) total = true →
           ∃ job_id, Py.subscripts job ["jobName"; "jobId"] = Ok job_id)
    (Htables : Forall2 table_names tables refs)
    (Hnonempty : refs ≠ []).

(** The principal passes the configured email filter, if there is one. *)
Definition passes_filter `{Re.Compiler} (self : Conf) (principal : string) : Prop :=
  match email_pattern self with
  | Some pattern =>
      pattern = "" ∨ Re.match_ pattern (JStr principal) = Ok true
  | None => True
  end.

Definition qualifying `{Re.Compiler} (self : Conf) (entry : json)
    (principal : string) (refs : list (string * string * string))
    (total : json) : Prop :=
  eligible entry principal refs total ∧ passes_filter self principal.

(** A subscript chain read as a lookup: [None] when some field on the way
    is absent. *)
Definition path (v : json) (ks : list string) : option json :=
  match Py.subscripts v ks with
  | Ok x => Some x
  | Raise _ => None
  end.

Definition lacks_expected_field (entry : json) : Prop :=
  Exists (λ fields, path entry fields = None) expected_fields.

Definition job_of (entry : json) : option json :=
  path entry ["protoPayload"; "serviceData"; "jobCompletedEvent"; "job"].

Definition job_state (entry : json) : option json :=
  job ← job_of entry; path job ["jobStatus"; "state"].

Definition job_error (entry : json) : option json :=
  job ← job_of entry; path job ["jobStatus"; "error"].

Definition referenced_tables (entry : json) : option json :=
  job ← job_of entry; path job ["jobStatistics"; "referencedTables"].

Definition principal_email (entry : json) : option json :=
  path entry ["protoPayload"; "authenticationInfo"; "principalEmail"].

(** The filtering pipeline as the specification words it, steps 1 to 5:
    the principal and the referenced tables of an entry that passes, and
    [None] for an entry that is discarded. *)
Definition passing `{Re.Compiler} (self : Conf) (entry : json)
  : option (json * list json) :=
  state ← job_state entry;
  if Py.ne_str state "DONE" then None else
  match Py.len (default (JObj []) (job_error entry)) with
  | Ok 0 =>
      email ← principal_email entry;
      refTables ← referenced_tables entry;
      if negb (Py.truthy refTables) then None else
      let accepted :=
        match email_pattern self with
        | Some pattern =>
            String.eqb pattern "" ||
            match Re.match_ pattern email with Ok true => true | _ => false end
        | None => true
        end in
      if accepted then
        match Py.iter refTables with
        | Ok tables => Some (email, tables)
        | Raise _ => None
        end
      else None
  | _ => None
  end.

(** Step 7: the keys an entry refers to, one per referenced table; none
    for a discarded entry. *)
Definition references `{Re.Compiler} (self : Conf) (entry : json)
  : list TableColumnUsageTuple :=
  match passing self entry with
  | Some (email, tables) =>
      omap (λ refTable, match table_key email refTable with
                        | Ok key => Some key
                        | Raise _ => None
                        end) tables
  | None => []
  end.

(** How the processing of an entry ends, read off a run on the initial
    environment. *)
Definition outcome `{Re.Compiler} (self : Conf) (entry : json) : flow unit :=
  (loop_body self entry {| count := 0; table_usage_counts := ∅; LOGGER := [] |}).2.

(** The key classes of the hashable keys among [keys]. *)
Definition key_classes (keys : list TableColumnUsageTuple) : list (list pyhash) :=
  omap (λ key, match hash_key key with
               | Ok h => Some h
               | Raise _ => None
               end) keys.

(** How many of the keys fall in the key class [h]. *)
Definition occurrences (h : list pyhash) (keys : list TableColumnUsageTuple) : Z :=
  Z.of_nat (length (List.filter
                      (λ key, match hash_key key with
                              | Ok h' => bool_decide (h' = h)
                              | Raise _ => false
                              end) keys)).

(** ** Further vocabulary and samples *)


(** The requests a pagination sends for the pages [rs] when none fails:
    the first with the body as given, each later one with the token of
    the page before. *)
Fixpoint request_chain (body : Logging.Body) (rs : list Logging.Response)
  : list Logging.event :=
  match rs with
  | [] => []
  | r :: rs' =>
      Logging.Request body ::
      match Logging.nextPageToken r with
      | Some tok => request_chain (set_pageToken body tok) rs'
      | None => []
      end
  end.

(** The service answers the request [body], sent after the events [t],
    and the requests for the pages that follow, with the pages [rs], the
    last of which carries no token. *)
Inductive served (logging_service : Logging.Service)
  : Logging.Body → list Logging.event → list Logging.Response → Prop :=
| served_last body t r :
    logging_service t body = Ok r →
    Logging.nextPageToken r = None →
    served logging_service body t [r]
| served_next body t r tok rs :
    logging_service t body = Ok r →
    Logging.nextPageToken r = Some tok →
    served logging_service (set_pageToken body tok)
      (t ++ [Logging.Request body])%list rs →
    served logging_service body t (r :: rs).

Definition has_entries (r : Logging.Response) : bool :=
  match Logging.entries r with Some _ => true | None => false end.

(** An event the paginator may add when it starts from [body]: a pause of
    the configured delay, or a request that differs from [body] in its
    page token only. *)
Definition paging_event (self : Conf) (body : Logging.Body)
    (ev : Logging.event) : Prop :=
  match ev with
  | Logging.Sleep seconds => seconds = delay_time self
  | Logging.Request b =>
      Logging.resourceNames b = Logging.resourceNames body ∧
      Logging.pageSize b = Logging.pageSize body ∧
      Logging.filter b = Logging.filter body ∧
      is_Some (Logging.pageToken b)
  end.

(** The configuration with the email pattern taken out. *)
Definition without_pattern (self : Conf) : Conf :=
  {| project_id := project_id self; pagesize := pagesize self;
     timestamp := timestamp self; email_pattern := None;
     delay_time := delay_time self |}.

Definition is_info (r : log_record) : bool :=
  match r with Info _ => true | Warn _ => false end.

(** Every stored key carries the source tag and the wildcard column. *)
Definition tagged (d : dict) : Prop :=
  map_Forall (λ _ kv, database kv.1 = JStr "bigquery" ∧ column kv.1 = JStr "*") d.

(** [get_scope()] *)
Definition get_scope : string := "extractor.bigquery_table_usage".

Module Scenario.

(** A service that is down. *)
Definition down_service : Logging.Service := λ _ _, Raise HttpError.


(** Three pages, the second without the [entries] key. *)
Definition gap_page : Logging.Response :=
  {| Logging.entries := None; Logging.nextPageToken := Some "p3" |}.

Definition gap_service : Logging.Service :=
  λ _ body,
    match Logging.pageToken body with
    | None => Ok Sample.page1
    | Some tok =>
        if String.eqb tok "p2" then Ok gap_page
        else if String.eqb tok "p3" then Ok Sample.page3
        else Raise HttpError
    end.

(** One page without entries and without a token. *)
Definition empty_service : Logging.Service :=
  λ _ _, Ok {| Logging.entries := Some []; Logging.nextPageToken := None |}.


Definition conf_two : Conf :=
  {| project_id := "proj"; pagesize := 2; timestamp := "2019-01-01T00:00:00Z";
     email_pattern := None; delay_time := 100 |}.

Definition conf_empty_pattern : Conf :=
  {| project_id := "proj"; pagesize := 10; timestamp := "2019-01-01T00:00:00Z";
     email_pattern := Some ""; delay_time := 100 |}.

(** A compiler that rejects every pattern. *)
Definition rejecting_compiler : Re.Compiler := λ _, None.

(** A running job in an entry without [authenticationInfo]. *)
Definition running_anonymous : json :=
  JObj [("protoPayload",
         JObj [("serviceData",
                JObj [("jobCompletedEvent",
                       JObj [("job",
                              JObj [("jobStatus",
                                     JObj [("state", JStr "RUNNING")])])])])])].

(** A table reference without identifiers. *)
Definition nameless_table : json := JObj [].

End Scenario.

(** * Properties *)

Ltac invert H := inversion H; subst; clear H.

(** ** Regular expressions: matching by derivatives is sound and complete *)

Module ReFacts.
Import Re.

Lemma lang_cat_nil r1 r2 : lang (Cat r1 r2) [] → lang r1 [] ∧ lang r2 [].
Proof.
  intros Hl. inversion Hl; subst.
  match goal with
  | Hw : (_ ++ _)%list = [] |- _ => apply app_eq_nil in Hw as [-> ->]
  end.
  done.
Qed.

Lemma lang_cat_cons r1 r2 c w :
  lang (Cat r1 r2) (c :: w) →
  (lang r1 [] ∧ lang r2 (c :: w)) ∨
  ∃ w1 w2, w = (w1 ++ w2)%list ∧ lang r1 (c :: w1) ∧ lang r2 w2.
Proof.
  intros Hl. inversion Hl as [| | | | |? ? w1 w2 H1 H2| |]; subst.
  destruct w1 as [|c1 w1]; simplify_eq/=.
  - by left.
  - right. by exists w1, w2.
Qed.

(** A non-empty word of a starred pattern starts with a non-empty word
    of the pattern. *)
Lemma lang_star_cons r c w :
  lang (Star r) (c :: w) →
  ∃ w1 w2, w = (w1 ++ w2)%list ∧ lang r (c :: w1) ∧ lang (Star r) w2.
Proof.
  intros Hs. remember (Star r) as sr eqn:Hsr. remember (c :: w) as cw eqn:Hcw.
  induction Hs as [| | | | | |?|r' w1 w2 H1 _ H2 IH2]; try discriminate.
  injection Hsr as ->. destruct w1 as [|c' w1']; simplify_eq/=.
  - by apply IH2.
  - by exists w1', w2.
Qed.

Lemma nullable_lang r : nullable r = true ↔ lang r [].
Proof.
  induction r as [| |c| |r1 IH1 r2 IH2|r1 IH1 r2 IH2|r IH]; simpl.
  - split; intros Hn; [done | invert Hn].
  - split; intros Hn; [constructor | done].
  - split; intros Hn; [done | invert Hn].
  - split; intros Hn; [done | invert Hn].
  - rewrite orb_true_iff, IH1, IH2. split.
    + intros [Hl|Hl]; [by apply lang_alt_l | by apply lang_alt_r].
    + intros Hl. invert Hl; [by left | by right].
  - rewrite andb_true_iff, IH1, IH2. split.
    + intros [H1 H2]. by apply (lang_cat _ _ [] []).
    + apply lang_cat_nil.
  - split; intros Hn; [constructor | done].
Qed.

Lemma deriv_lang c r w : lang (deriv c r) w ↔ lang r (c :: w).
Proof.
  revert w. induction r as [| |c'| |r1 IH1 r2 IH2|r1 IH1 r2 IH2|r IH];
    intros w; simpl.
  - split; intros Hl; invert Hl.
  - split; intros Hl; invert Hl.
  - destruct (decide (c' = c)) as [->|Hne]; split; intros Hl; invert Hl;
      try constructor; done.
  - split; intros Hl; invert Hl; constructor.
  - split; intros Hl; invert Hl.
    + apply lang_alt_l. by apply IH1.
    + apply lang_alt_r. by apply IH2.
    + apply lang_alt_l. by apply IH1.
    + apply lang_alt_r. by apply IH2.
  - assert (Hcat : lang (Cat (deriv c r1) r2) w → lang (Cat r1 r2) (c :: w)).
    { intros Hl. invert Hl.
      match goal with H : lang (deriv c r1) ?w1 |- _ =>
        apply IH1 in H; by apply (lang_cat _ _ (c :: w1)) end. }
    destruct (nullable r1) eqn:Hn; split; intros Hl.
    + invert Hl; [by apply Hcat|].
      apply (lang_cat _ _ [] (c :: w)); [by apply nullable_lang | by apply IH2].
    + apply lang_cat_cons in Hl as [[_ H2]|(w1 & w2 & -> & H1 & H2)].
      * apply lang_alt_r. by apply IH2.
      * apply lang_alt_l. apply lang_cat; [by apply IH1 | done].
    + by apply Hcat.
    + apply lang_cat_cons in Hl as [[H1 _]|(w1 & w2 & -> & H1 & H2)].
      * apply nullable_lang in H1. congruence.
      * apply lang_cat; [by apply IH1 | done].
  - split; intros Hl.
    + invert Hl.
      match goal with H : lang (deriv c r) ?w1 |- _ =>
        apply IH in H; by apply (lang_star_app _ (c :: w1)) end.
    + apply lang_star_cons in Hl as (w1 & w2 & -> & H1 & H2).
      apply lang_cat; [by apply IH | done].
Qed.

Lemma fullmatch_word_lang r w : fullmatch_word r w = true ↔ lang r w.
Proof.
  revert r. induction w as [|c w IH]; intros r; simpl.
  - apply nullable_lang.
  - rewrite IH. apply deriv_lang.
Qed.

(** [re.match] succeeds exactly when some leading part of the subject
    is a word of the pattern. *)
Lemma match_word_lang r w :
  match_word r w = true ↔ ∃ p q, w = (p ++ q)%list ∧ lang r p.
Proof.
  revert r. induction w as [|c w IH]; intros r; simpl.
  - rewrite orb_false_r, nullable_lang. split.
    + intros Hl. by exists [], [].
    + intros (p & q & Hw & Hl). symmetry in Hw.
      apply app_eq_nil in Hw as [-> _]. done.
  - rewrite orb_true_iff, nullable_lang, IH. split.
    + intros [Hl|(p & q & -> & Hl)].
      * by exists [], (c :: w).
      * exists (c :: p), q. split; [done|]. by apply deriv_lang.
    + intros (p & q & Hw & Hl). destruct p as [|c' p]; [by left|].
      simpl in Hw. injection Hw as <- ->. right.
      exists p, q. split; [done|]. by apply deriv_lang.
Qed.

End ReFacts.

(** ** The usage-count dict *)

Section dict_facts.
Implicit Types (d : dict) (m : gmap (list pyhash) Z) (h : list pyhash).
Implicit Types (key : TableColumnUsageTuple).

Lemma counts_increment d key h :
  hash_key key = Ok h →
  Dict.counts (increment d key) = bump h (Dict.counts d).
Proof.
  intros Hh. unfold increment, bump, Dict.counts. rewrite Hh.
  rewrite fmap_insert, lookup_fmap. done.
Qed.

Lemma bump_comm h1 h2 m : bump h1 (bump h2 m) = bump h2 (bump h1 m).
Proof.
  unfold bump. destruct (decide (h1 = h2)) as [->|Hne]; [done|].
  rewrite !lookup_insert_ne by done. by apply insert_insert_ne.
Qed.

Lemma foldl_bump_permutation hs hs' m :
  hs ≡ₚ hs' → foldl (flip bump) m hs = foldl (flip bump) m hs'.
Proof.
  intros Hp. revert m.
  induction Hp as [|x l l' _ IH|x y l|l l' l'' _ IH1 _ IH2]; intros m; simpl.
  - done.
  - apply IH.
  - by rewrite bump_comm.
  - by rewrite IH1.
Qed.

Lemma foldl_bump_default hs m h :
  default 0 (foldl (flip bump) m hs !! h) =
  default 0 (m !! h) +
  Z.of_nat (length (List.filter (λ h', bool_decide (h' = h)) hs)).
Proof.
  revert m. induction hs as [|x hs IH]; intros m; simpl; [lia|].
  rewrite IH. unfold bump. case_bool_decide as Hx; simpl.
  - subst x. rewrite lookup_insert_eq. simpl. lia.
  - by rewrite lookup_insert_ne.
Qed.

Lemma foldl_bump_None hs m h :
  foldl (flip bump) m hs !! h = None ↔ m !! h = None ∧ h ∉ hs.
Proof.
  revert m. induction hs as [|x hs IH]; intros m; simpl.
  - split; [intros Hm; split; [done | apply not_elem_of_nil] | by intros [Hm _]].
  - rewrite IH, not_elem_of_cons. unfold bump.
    destruct (decide (x = h)) as [->|Hne].
    + rewrite lookup_insert_eq. intuition congruence.
    + rewrite lookup_insert_ne by done. intuition congruence.
Qed.

Lemma positive_counts_increment d key :
  positive_counts d → positive_counts (increment d key).
Proof.
  intros Hd. unfold increment. destruct (hash_key key) as [h|]; [|done].
  apply map_Forall_insert_2; [|done]. simpl.
  destruct (d !! h) as [[k c]|] eqn:Hl; simpl; [|lia].
  apply Hd in Hl. simpl in Hl. lia.
Qed.

Lemma total_increment d key h :
  hash_key key = Ok h → Dict.total (increment d key) = Dict.total d + 1.
Proof.
  intros Hh. unfold increment, Dict.total. rewrite Hh.
  destruct (d !! h) as [[k c]|] eqn:Hl; simpl.
  - rewrite <-(insert_delete_eq d h (k, c + 1)).
    rewrite map_fold_insert_L;
      [|intros; simpl; lia|by rewrite lookup_delete_eq].
    rewrite <-(insert_id d h (k, c)) at 2 by done.
    rewrite <-(insert_delete_eq d h (k, c)).
    rewrite map_fold_insert_L;
      [|intros; simpl; lia|by rewrite lookup_delete_eq].
    simpl. lia.
  - rewrite map_fold_insert_L; [|intros; simpl; lia|done]. simpl. lia.
Qed.

End dict_facts.

(** ** The loops of [_count_usage] *)

(** Unfold the monads of the model. *)
Ltac run :=
  cbv beta iota delta
    [mbind mret M_bind M_ret result_bind result_ret lift continue pass
     try_except usage_get usage_set log incr_count].

Section count_usage_facts.
Context `{Re.Compiler} (self : Conf).

Lemma count_table_run email refTable s :
  count_table email refTable s =
    match key ← table_key email refTable; _ ← hash_key key; mret key with
    | Ok key =>
        (with_usage s (increment (table_usage_counts s) key), Next ())
    | Raise e => (s, Raised e)
    end.
Proof.
  unfold count_table, table_key.
  destruct (Py.getitem refTable "projectId") as [project|]; [|done].
  destruct (Py.getitem refTable "datasetId") as [dataset|]; [|done].
  destruct (Py.getitem refTable "tableId") as [tbl|]; [|done].
  run. unfold Dict.get, Dict.setitem, increment. run.
  destruct (hash_key _) eqn:Hh; simpl; [by rewrite Hh | done].
Qed.

Lemma with_usage_id s : with_usage s (table_usage_counts s) = s.
Proof. by destruct s. Qed.

Lemma for_tables_run email tables s :
  for_ tables (count_table email) s =
    (with_usage s (foldl increment (table_usage_counts s)
                     (counted_keys email tables).1),
     match (counted_keys email tables).2 with
     | None => Next ()
     | Some e => Raised e
     end).
Proof.
  revert s. induction tables as [|refTable tables IH]; intros s; simpl.
  - by rewrite with_usage_id.
  - rewrite count_table_run.
    destruct (_ ← table_key email refTable; _) as [key|e]; simpl.
    + rewrite IH. by destruct (counted_keys email tables).
    + by rewrite with_usage_id.
Qed.

Lemma logged_nil s : logged [] s = s.
Proof. destruct s. unfold logged. simpl. by rewrite app_nil_r. Qed.

Lemma getitem_dict v k x :
  Py.getitem v k = Ok x → ∃ kvs, v = JObj kvs ∧ Py.assoc k kvs = Some x.
Proof.
  destruct v as [| | | | |kvs]; simpl; try done.
  destruct (Py.assoc k kvs) eqn:Ha; [|done]. intros [= ->]. by exists kvs.
Qed.

Lemma subscripts_two v a b :
  Py.subscripts v [a; b] = (x ← Py.getitem v a; Py.getitem x b).
Proof. done. Qed.

Lemma iter_of_len v n : Py.len v = Ok n → ∃ l, Py.iter v = Ok l.
Proof. destruct v; simpl; try done; eauto. Qed.

Lemma len_nonneg v n : Py.len v = Ok n → 0 ≤ n.
Proof. destruct v; simpl; intros [= <-]; lia. Qed.

(** The pipeline either ends before the loop over the tables, leaving
    the environment as it is, or runs that loop for the principal and
    the tables of an entry that passes the filters. *)
Lemma count_entry_run entry :
  (∃ out, (∀ s, count_entry self entry s = (s, out)) ∧ out ≠ Next () ∧
          (out = Continue → passing self entry = None)) ∨
  (∃ email tables ws,
      passing self entry = Some (email, tables) ∧
      ∀ s, count_entry self entry s =
           for_ tables (count_table email) (logged ws s)).
Proof.
  unfold count_entry, passing, job_state, job_error, referenced_tables,
    principal_email, job_of, path.
  destruct (Py.subscripts entry [_; _; _; _]) as [job|] eqn:Hjob; run;
    [|left; exists Continue; by split_and!].
  simpl. rewrite !subscripts_two.
  destruct (Py.getitem job "jobStatus") as [jobStatus|e] eqn:Hstatus; run;
    [|left; exists (Raised e); by split_and!].
  destruct (Py.getitem jobStatus "state") as [state|e] eqn:Hstate; run;
    [|left; exists (Raised e); by split_and!].
  simpl.
  destruct (Py.ne_str state "DONE") eqn:Hdone;
    [left; exists Continue; by split_and!|].
  apply getitem_dict in Hstate as (kvs & -> & Hstate). simpl.
  assert (Herr : default (JObj [])
                   match match Py.assoc "error" kvs with
                         | Some x => Ok x
                         | None => Raise KeyError
                         end with
                   | Ok x => Some x
                   | Raise _ => None
                   end = default (JObj []) (Py.assoc "error" kvs))
    by (by destruct (Py.assoc "error" kvs)).
  rewrite Herr. clear Herr.
  destruct (Py.len _) as [nerr|e] eqn:Hlen; run;
    [|left; exists (Raised e); by split_and!].
  destruct (0 <? nerr) eqn:Hpos.
  { left. exists Continue. split_and!; [done..|]. intros _.
    apply Z.ltb_lt in Hpos. by destruct nerr. }
  apply len_nonneg in Hlen as Hge. apply Z.ltb_ge in Hpos.
  assert (nerr = 0) as -> by lia. clear Hge Hpos.
  destruct (Py.subscripts entry [_; _; _]) as [email|e] eqn:Hemail; run;
    [|left; exists (Raised e); by split_and!].
  simpl.
  destruct (Py.getitem job "jobStatistics") as [jobStatistics|e] eqn:Hstats;
    run; [|left; exists (Raised e); by split_and!].
  destruct jobStatistics as [| | | | |stats];
    try (left; exists (Raised AttributeError); by split_and!).
  simpl.
  destruct (Py.assoc "referencedTables" stats) as [refTables|] eqn:Hrefs;
    simpl; [|left; exists Continue; by split_and!].
  destruct (Py.truthy refTables) eqn:Htruthy; simpl;
    [|left; exists Continue; by split_and!].
  unfold email_filter.
  destruct (email_pattern self) as [pattern|];
    [destruct (String.eqb pattern "");
     [|destruct (Re.match_ pattern email) as [[|]|e]]|];
    run; simpl;
    try (left; exists Continue; by split_and!);
    try (left; exists (Raised e); by split_and!).
  all: destruct (Py.assoc "totalTablesProcessed" stats) as [total|]; run;
    [|left; exists (Raised KeyError); by split_and!].
  all: destruct (Py.len refTables) as [n|e'] eqn:Hn; run;
    [|left; exists (Raised e'); by split_and!].
  all: destruct (iter_of_len _ _ Hn) as [tables Hiter]; rewrite Hiter.
  all: destruct (Py.int_ne n total).
  all: try (right; by exists email, tables, [];
            split; [|intros s; rewrite logged_nil]).
  all: destruct (Py.getitem job "jobName") as [jobName|e']; run;
    [|left; exists (Raised e'); by split_and!].
  all: destruct (Py.getitem jobName "jobId") as [job_id|e']; run;
    [|left; exists (Raised e'); by split_and!].
  all: right; by exists email, tables, [Warn job_id].
Qed.

Lemma loop_body_run entry s :
  pagesize self ≠ 0 →
  loop_body self entry s = count_entry self entry (progress self s).
Proof.
  intros Hp. unfold loop_body, Py.mod_, progress. run.
  apply Z.eqb_neq in Hp. rewrite Hp. simpl.
  destruct ((count s + 1) `mod` pagesize self =? 0); simpl; [done|].
  by rewrite app_nil_r.
Qed.

Lemma loop_body_zero entry s :
  pagesize self = 0 →
  loop_body self entry s =
    ({| count := count s + 1; table_usage_counts := table_usage_counts s;
        LOGGER := LOGGER s |}, Raised ZeroDivisionError).
Proof. intros Hz. unfold loop_body, Py.mod_. run. by rewrite Hz. Qed.

(** An entry ends the same way whatever has been counted before. *)
Lemma loop_body_flow entry s1 s2 :
  (loop_body self entry s1).2 = (loop_body self entry s2).2.
Proof.
  destruct (decide (pagesize self = 0)) as [Hz|Hnz].
  - unfold loop_body, Py.mod_. run. by rewrite Hz.
  - rewrite !loop_body_run by done.
    destruct (count_entry_run entry)
      as [(out & Hrun & _)|(email & tables & ws & _ & Hrun)];
      rewrite !Hrun; [done|].
    by rewrite !for_tables_run.
Qed.

Lemma loop_body_outcome entry s :
  (loop_body self entry s).2 = outcome self entry.
Proof. apply loop_body_flow. Qed.

Lemma foldl_increment_app d keys keys' :
  foldl increment d (keys ++ keys') = foldl increment (foldl increment d keys) keys'.
Proof. apply foldl_app. Qed.

Lemma counts_foldl_increment d keys :
  Dict.counts (foldl increment d keys) =
  foldl (flip bump) (Dict.counts d) (key_classes keys).
Proof.
  revert d. induction keys as [|key keys IH]; intros d; simpl; [done|].
  rewrite IH. destruct (hash_key key) as [h|] eqn:Hh; simpl.
  - by rewrite (counts_increment _ _ h).
  - unfold increment. by rewrite Hh.
Qed.

Lemma positive_counts_foldl d keys :
  positive_counts d → positive_counts (foldl increment d keys).
Proof.
  revert d. induction keys as [|key keys IH]; intros d Hd; simpl; [done|].
  by apply IH, positive_counts_increment.
Qed.

(** When the loop over the tables ends normally, it has counted one key
    per table. *)
Lemma counted_keys_all email tables :
  (counted_keys email tables).2 = None →
  (counted_keys email tables).1 =
    omap (λ refTable, match table_key email refTable with
                      | Ok key => Some key
                      | Raise _ => None
                      end) tables.
Proof.
  induction tables as [|refTable tables IH]; simpl; [done|].
  destruct (table_key email refTable) as [key|]; simpl; [|done].
  destruct (hash_key key); simpl; [|done].
  destruct (counted_keys email tables) as [keys e]; simpl in *.
  intros He. by rewrite IH.
Qed.

(** Whatever an entry does to the dict is a series of increments. *)
Lemma loop_body_usage entry s :
  ∃ keys, table_usage_counts (loop_body self entry s).1 =
          foldl increment (table_usage_counts s) keys.
Proof.
  destruct (decide (pagesize self = 0)) as [Hz|Hnz].
  - exists []. by rewrite loop_body_zero.
  - rewrite loop_body_run by done.
    destruct (count_entry_run entry)
      as [(out & Hrun & _)|(email & tables & ws & _ & Hrun)]; rewrite Hrun.
    + by exists [].
    + rewrite for_tables_run. by eexists.
Qed.

(** An entry that does not raise counts exactly its references. *)
Lemma loop_body_counts entry s :
  (∀ e, outcome self entry ≠ Raised e) →
  table_usage_counts (loop_body self entry s).1 =
    foldl increment (table_usage_counts s) (references self entry).
Proof.
  intros Hout. rewrite <-(loop_body_outcome entry s) in Hout.
  destruct (decide (pagesize self = 0)) as [Hz|Hnz].
  { rewrite loop_body_zero in Hout by done. by destruct (Hout ZeroDivisionError). }
  unfold references. rewrite loop_body_run in * by done.
  destruct (count_entry_run entry)
    as [(out & Hrun & Hne & Hc)|(email & tables & ws & Hpass & Hrun)];
    rewrite Hrun in *; simpl in *.
  - destruct out as [[]| |e]; [done| |by destruct (Hout e)].
    by rewrite Hc.
  - rewrite Hpass, for_tables_run in *. simpl in *.
    destruct (counted_keys email tables).2 as [e|] eqn:He;
      [by destruct (Hout e)|].
    by rewrite counted_keys_all.
Qed.

Lemma count_records_cons entry records s :
  count_records self (entry :: records) s =
    match outcome self entry with
    | Raised e => ((loop_body self entry s).1, Raised e)
    | _ => count_records self records (loop_body self entry s).1
    end.
Proof.
  rewrite <-(loop_body_outcome entry s). unfold count_records. simpl.
  by destruct (loop_body self entry s) as [s' [| |]].
Qed.

(** The loop over the records ends normally exactly when no entry
    raises, whatever the order. *)
Lemma count_records_next records s :
  (count_records self records s).2 = Next () ↔
  Forall (λ entry, ∀ e, outcome self entry ≠ Raised e) records.
Proof.
  revert s. induction records as [|entry records IH]; intros s.
  - split; [constructor | done].
  - rewrite count_records_cons, Forall_cons.
    destruct (outcome self entry) as [[]| |e] eqn:Hout;
      rewrite ?IH; simpl; [intuition congruence..|].
    split; [done|]. intros [Hne _]. by destruct (Hne e).
Qed.

Lemma count_records_counts records s :
  (count_records self records s).2 = Next () →
  table_usage_counts (count_records self records s).1 =
    foldl increment (table_usage_counts s) (flat_map (references self) records).
Proof.
  revert s. induction records as [|entry records IH]; intros s; [done|].
  rewrite count_records_next, Forall_cons. intros [Hentry Hrest].
  rewrite count_records_cons. simpl. rewrite foldl_increment_app.
  rewrite <-(loop_body_counts entry s) by done.
  destruct (outcome self entry) as [[]| |e];
    [| |by destruct (Hentry e)]; apply IH; by apply count_records_next.
Qed.

Lemma count_records_positive records s :
  positive_counts (table_usage_counts s) →
  positive_counts (table_usage_counts (count_records self records s).1).
Proof.
  revert s. induction records as [|entry records IH]; intros s Hs; [done|].
  assert (positive_counts (table_usage_counts (loop_body self entry s).1)) as Hs'.
  { destruct (loop_body_usage entry s) as [keys ->].
    by apply positive_counts_foldl. }
  rewrite count_records_cons. destruct (outcome self entry); by try apply IH.
Qed.

End count_usage_facts.

(** ** Entries that pass the filters *)

Section qualifying_facts.
Context `{Re.Compiler} (self : Conf).

Lemma counted_keys_names principal tables refs :
  Forall2 table_names tables refs →
  counted_keys (JStr principal) tables = (usage_key principal <$> refs, None).
Proof.
  induction 1 as [|refTable ref tables refs (Hp & Hd & Ht) _ IH]; simpl; [done|].
  unfold table_key. rewrite Hp, Hd, Ht. simpl. by rewrite IH.
Qed.

Lemma hash_usage_key principal ref :
  hash_key (usage_key principal ref) =
  Ok [HStr "bigquery"; HStr ref.1.1; HStr ref.1.2; HStr ref.2; HStr "*";
      HStr principal].
Proof. done. Qed.

Lemma total_foldl_usage_keys principal refs d :
  Dict.total (foldl increment d (usage_key principal <$> refs)) =
  Dict.total d + Z.of_nat (length refs).
Proof.
  revert d. induction refs as [|ref refs IH]; intros d; simpl; [lia|].
  rewrite IH, (total_increment _ _ _ (hash_usage_key principal ref)). lia.
Qed.

Lemma subscripts_app v ks ks' :
  Py.subscripts v (ks ++ ks') = (x ← Py.subscripts v ks; Py.subscripts x ks').
Proof.
  unfold Py.subscripts. rewrite foldl_app.
  destruct (foldl _ (Ok v) ks) as [x|e]; simpl; [done|].
  induction ks' as [|k ks' IH]; simpl; [done|]. apply IH.
Qed.

(** What the pipeline does with an eligible entry, given how the email
    filter ends on its principal. *)
Lemma eligible_count_entry entry principal refs total out :
  eligible entry principal refs total →
  (∀ s, email_filter self (JStr principal) s = (s, out)) →
  ∀ s, count_entry self entry s =
       match out with
       | Next _ =>
           (with_usage
              (logged (mismatch_warning entry (Z.of_nat (length refs)) total) s)
              (foldl increment (table_usage_counts s)
                 (usage_key principal <$> refs)), Next ())
       | _ => (s, out)
       end.
Proof.
  intros [job status statistics tables] Hfilter s.
  assert (Py.subscripts entry
            ["protoPayload"; "serviceData"; "jobCompletedEvent"; "job";
             "jobName"; "jobId"] = Py.subscripts job ["jobName"; "jobId"]) as Hpath.
  { change ["protoPayload"; "serviceData"; "jobCompletedEvent"; "job";
            "jobName"; "jobId"]
      with (["protoPayload"; "serviceData"; "jobCompletedEvent"; "job"] ++
            ["jobName"; "jobId"])%list.
    by rewrite subscripts_app, Hjob. }
  unfold mismatch_warning, count_entry. rewrite Hpath, Hjob. run.
  rewrite (subscripts_two job "jobStatus"), (subscripts_two job "jobStatistics").
  rewrite Hstatus. run. rewrite Hstate. run. simpl.
  destruct (Py.get status "error" (JObj [])) as [error|]; [|done].
  simpl in Herror. rewrite Herror, Hemail, Hstatistics. run. simpl.
  destruct (getitem_dict _ _ _ Hrefs) as (stats & -> & Hassoc).
  destruct (getitem_dict _ _ _ Htotal) as (stats' & [= <-] & Hassoc').
  simpl. rewrite Hassoc, Hassoc'. simpl.
  assert (length tables = length refs) as Hlen by by eapply Forall2_length.
  destruct tables as [|refTable tables]; [by destruct refs|].
  cbv beta iota delta [negb]. rewrite Hfilter. run. destruct out as [[]| |e]; [|done..].
  rewrite Hlen.
  destruct (Py.int_ne _ total); run.
  - destruct Hid as [job_id ->]; [done|]. run.
    by rewrite for_tables_run, (counted_keys_names _ _ _ Htables).
  - rewrite for_tables_run, (counted_keys_names _ _ _ Htables). simpl.
    by rewrite logged_nil.
Qed.

Lemma email_filter_pass principal s :
  passes_filter self principal →
  email_filter self (JStr principal) s = (s, Next ()).
Proof.
  unfold passes_filter, email_filter.
  destruct (email_pattern self) as [pattern|]; [|done].
  intros [->|Hm]; [done|].
  destruct (String.eqb pattern ""); [done|]. run. by rewrite Hm.
Qed.

Lemma email_filter_pattern pattern r principal s :
  email_pattern self = Some pattern →
  pattern ≠ "" →
  Re.compile pattern = Some r →
  email_filter self (JStr principal) s =
    (s, if Re.match_word r (list_ascii_of_string principal)
        then Next () else Continue).
Proof.
  intros Hp Hne Hr. unfold email_filter, Re.match_. rewrite Hp, Hr.
  apply String.eqb_neq in Hne. rewrite Hne. run.
  by destruct (Re.match_word _ _).
Qed.

Lemma qualifying_loop_body entry principal refs total s :
  pagesize self ≠ 0 →
  qualifying self entry principal refs total →
  loop_body self entry s =
    (with_usage
       (logged (mismatch_warning entry (Z.of_nat (length refs)) total)
          (progress self s))
       (foldl increment (table_usage_counts s) (usage_key principal <$> refs)),
     Next ()).
Proof.
  intros Hnz [Hel Hpass].
  rewrite loop_body_run by done.
  rewrite (eligible_count_entry entry principal refs total (Next ()) Hel); [done|].
  intros s'. by apply email_filter_pass.
Qed.

(** The job id of an eligible entry is there when the warning needs it. *)
Lemma eligible_job_id entry principal refs total :
  eligible entry principal refs total →
  Py.int_ne (Z.of_nat (length refs)) total = true →
  ∃ job_id,
    Py.subscripts entry
      ["protoPayload"; "serviceData"; "jobCompletedEvent"; "job"; "jobName"; "jobId"]
      = Ok job_id ∧
    mismatch_warning entry (Z.of_nat (length refs)) total = [Warn job_id].
Proof.
  intros [job status statistics tables] Hne.
  destruct (Hid Hne) as [job_id Hjob_id]. exists job_id.
  assert (Py.subscripts entry
            ["protoPayload"; "serviceData"; "jobCompletedEvent"; "job";
             "jobName"; "jobId"] = Ok job_id) as Hpath.
  { change ["protoPayload"; "serviceData"; "jobCompletedEvent"; "job";
            "jobName"; "jobId"]
      with (["protoPayload"; "serviceData"; "jobCompletedEvent"; "job"] ++
            ["jobName"; "jobId"])%list.
    by rewrite subscripts_app, Hjob. }
  split; [done|]. unfold mismatch_warning. by rewrite Hne, Hpath.
Qed.

End qualifying_facts.

(** ** The paginator *)

Section paging_facts.
Context (logging_service : Logging.Service) (self : Conf).

(** A pagination that has ended is not changed by more fuel. *)
Lemma page_loop_fuel fuel k body response t r :
  page_loop logging_service self fuel body response t = Some r →
  page_loop logging_service self (fuel + k) body response t = Some r.
Proof.
  revert body response t r.
  induction fuel as [|fuel IH]; intros body response t r; simpl; [done|].
  destruct response as [resp|]; [|done].
  destruct (match Logging.nextPageToken resp with Some _ => _ | None => _ end)
    as [[t' body'] response'].
  destruct (page_loop _ _ fuel _ _ _) as [[t'' pages]|] eqn:Hloop; [|done].
  by rewrite (IH _ _ _ _ Hloop).
Qed.


Lemma _page_over_results_fuel fuel k body t r :
  _page_over_results logging_service self fuel body t = Some r →
  _page_over_results logging_service self (fuel + k) body t = Some r.
Proof.
  unfold _page_over_results.
  destruct (execute _ _ _) as [t' [resp|e]]; [|done].
  destruct (page_loop _ _ fuel _ _ _) as [[t'' pages]|] eqn:Hloop; [|done].
  by rewrite (page_loop_fuel _ _ _ _ _ _ Hloop).
Qed.

End paging_facts.

(** ** The extraction protocol *)

Section extract_facts.
Implicit Types (d : dict) (me : Self.t).

Lemma well_keyed_increment d key : well_keyed d → well_keyed (increment d key).
Proof.
  intros Hd. unfold increment. destruct (hash_key key) as [h|] eqn:Hh; [|done].
  apply map_Forall_insert_2; [|done]. simpl.
  destruct (d !! h) as [[key' c]|] eqn:Hl; simpl; [|done].
  by apply (Hd h (key', c)).
Qed.

Lemma well_keyed_foldl d keys :
  well_keyed d → well_keyed (foldl increment d keys).
Proof.
  revert d. induction keys as [|key keys IH]; intros d Hd; simpl; [done|].
  by apply IH, well_keyed_increment.
Qed.

Lemma well_keyed_items d kv :
  well_keyed d → kv ∈ Dict.items d → Dict.getitem d kv.1 = Ok kv.2.
Proof.
  intros Hd Hin. unfold Dict.items in Hin.
  apply list_elem_of_fmap in Hin as ([h kv'] & -> & Hin).
  apply elem_of_map_to_list in Hin. simpl.
  unfold Dict.getitem. rewrite (Hd h kv' Hin). simpl. rewrite Hin.
  by destruct kv'.
Qed.

Lemma NoDup_items d : well_keyed d → NoDup (Dict.items d).
Proof.
  intros Hd. unfold Dict.items. apply NoDup_fmap_2_strong; [|apply NoDup_map_to_list].
  intros [h1 kv1] [h2 kv2] H1 H2 Heq. simpl in Heq. subst kv2.
  apply elem_of_map_to_list in H1, H2.
  apply Hd in H1, H2. simpl in *. congruence.
Qed.

Lemma extract_calls_dict n me :
  Self.table_usage_counts (extract_calls n me).1 = Self.table_usage_counts me.
Proof.
  revert me. induction n as [|n IH]; intros me; simpl; [done|].
  unfold extract. destruct (Self.iter me) as [|key rest].
  - specialize (IH me). by destruct (extract_calls n me).
  - specialize (IH {| Self.table_usage_counts := Self.table_usage_counts me;
                      Self.iter := rest |}).
    by destruct (extract_calls n _).
Qed.

(** Once the iterator is exhausted, every call returns [None]. *)
Lemma extract_calls_exhausted n d :
  extract_calls n {| Self.table_usage_counts := d; Self.iter := [] |} =
    ({| Self.table_usage_counts := d; Self.iter := [] |}, replicate n (Ok None)).
Proof. induction n as [|n IH]; simpl; [done|]. by rewrite IH. Qed.

(** While keys remain, each call returns the next key with its count. *)
Lemma extract_calls_items d (kvs : list (TableColumnUsageTuple * Z)) n :
  Forall (λ kv, Dict.getitem d kv.1 = Ok kv.2) kvs →
  extract_calls (length kvs + n)
      {| Self.table_usage_counts := d; Self.iter := kvs.*1 |} =
    ({| Self.table_usage_counts := d; Self.iter := [] |},
     (((λ kv, Ok (Some kv)) <$> kvs) ++ replicate n (Ok None))%list).
Proof.
  induction 1 as [|[key c] kvs Hkv _ IH].
  - apply extract_calls_exhausted.
  - change (extract_calls (length ((key, c) :: kvs) + n) _)
      with (let '(me1, r) :=
              extract {| Self.table_usage_counts := d;
                         Self.iter := key :: kvs.*1 |} in
            let '(me2, rs) := extract_calls (length kvs + n) me1 in
            (me2, r :: rs)).
    unfold extract. simpl in Hkv. simpl Self.iter. simpl Self.table_usage_counts.
    cbv beta iota. rewrite Hkv, IH. done.
Qed.

End extract_facts.

Lemma omap_table_key principal tables refs :
  Forall2 table_names tables refs →
  omap (λ refTable, match table_key (JStr principal) refTable with
                    | Ok key => Some key
                    | Raise _ => None
                    end) tables = usage_key principal <$> refs.
Proof.
  induction 1 as [|refTable names tables refs (Hp & Hd & Ht) _ IH]; [done|].
  rewrite fmap_cons, <-IH. simpl. unfold table_key at 1. by rewrite Hp, Hd, Ht.
Qed.

(** The two readings of a qualifying entry agree: its references are the
    keys of its tables. *)
Lemma qualifying_references `{Re.Compiler} (self : Conf) (entry : json)
    (principal : string) (refs : list (string * string * string)) (total : json) :
  qualifying self entry principal refs total →
  references self entry = usage_key principal <$> refs.
Proof.
  intros [[job status statistics tables] Hpass].
  unfold references, passing, job_state, job_error, referenced_tables,
    principal_email, job_of, path.
  rewrite Hjob, Hemail. simpl. rewrite !subscripts_two, Hstatus, Hstatistics. simpl.
  rewrite Hstate, Hrefs. simpl.
  destruct (getitem_dict _ _ _ Hstatus) as (kvs & -> & _).
  destruct (getitem_dict _ _ _ Hstate) as (kvs' & -> & _). simpl in *.
  destruct (Py.assoc "error" kvs') as [error|]; simpl in *; try rewrite Herror.
  all: assert (length tables = length refs) as Hlen by by eapply Forall2_length.
  all: destruct tables as [|refTable tables]; [by destruct refs|]; simpl.
  all: assert (match email_pattern self with
               | Some pattern =>
                   String.eqb pattern "" ||
                   match Re.match_ pattern (JStr principal) with
                   | Ok true => true
                   | _ => false
                   end
               | None => true
               end = true) as ->
         by (unfold passes_filter in Hpass;
             destruct (email_pattern self) as [pattern|]; [|done];
             destruct Hpass as [-> | ->]; [done | by rewrite orb_true_r]).
  all: by apply omap_table_key.
Qed.

(** The scenario of two principals reading the same table: one count for
    each, and nothing else. *)
Example alice_and_bob :
  let d := table_usage_counts
             (count_records (H := Re.literal_compiler) Sample.conf
                [Sample.alice; Sample.bob] Sample.start).1 in
  Dict.items d = [(Sample.key "alice@co" "t1", 1); (Sample.key "bob@co" "t1", 1)] ∨
  Dict.items d = [(Sample.key "bob@co" "t1", 1); (Sample.key "alice@co" "t1", 1)].
Proof. vm_compute. by left + by right. Qed.

(** * The claims *)

(** C1, as stated, does not hold: an entry in which an expected nested
    field is absent is not always discarded. The job of
    [Sample.no_status] has no [jobStatus]; the subscript on it lies
    outside the [try], the [KeyError] leaves the loop and the entry after
    it is never counted. *)
Lemma C1_missing_status_raises :
  lacks_expected_field Sample.no_status ∧
  count_records (H := Re.literal_compiler) Sample.conf
    [Sample.no_status; Sample.alice] Sample.start =
    ({| count := 1; table_usage_counts := ∅; LOGGER := [] |}, Raised KeyError) ∧
  ¬ (∀ (R : Re.Compiler) (self : Conf) (entry : json) (s : Env),
       pagesize self ≠ 0 →
       lacks_expected_field entry →
       ∃ s', loop_body self entry s = (s', Continue)).
Proof.
  assert (lacks_expected_field Sample.no_status) as Hlacks
    by by apply Exists_cons_hd.
  split_and!; [done|by vm_compute|].
  intros Hclaim.
  destruct (Hclaim Re.literal_compiler Sample.conf Sample.no_status Sample.start)
    as [s' Hrun]; [done..|].
  vm_compute in Hrun. discriminate.
Qed.

(** C1, amended: an entry in which [protoPayload], [serviceData],
    [jobCompletedEvent] or [job] is absent, so that the navigation to the
    job fails, is discarded silently: nothing is raised, the dict is
    untouched, no warning is written, and the loop goes on with the next
    entry. *)
Theorem C1_entry_without_job_is_skipped `{Re.Compiler} (self : Conf)
    (entry : json) (s : Env) :
  pagesize self ≠ 0 →
  job_of entry = None →
  loop_body self entry s = (progress self s, Continue) ∧
  ∀ records,
    count_records self (entry :: records) s =
    count_records self records (progress self s).
Proof.
  intros Hnz Hjob.
  assert (loop_body self entry s = (progress self s, Continue)) as Hrun.
  { rewrite loop_body_run by done. unfold count_entry.
    unfold job_of, path in Hjob.
    destruct (Py.subscripts entry _); [done|]. by run. }
  split; [done|]. intros records. unfold count_records. simpl. by rewrite Hrun.
Qed.

Lemma C1_entry_without_job_is_skipped_witness :
  pagesize Sample.conf ≠ 0 ∧
  job_of Sample.unrelated = None ∧
  loop_body (H := Re.literal_compiler) Sample.conf Sample.unrelated Sample.start
    = (progress Sample.conf Sample.start, Continue).
Proof.
  split; [done|]. split; [done|].
  by apply (C1_entry_without_job_is_skipped (H := Re.literal_compiler)
              Sample.conf Sample.unrelated Sample.start).
Defined.

(** C2: the claim does not hold of the code. When the request for page 3
    fails once, the loop sleeps and comes back to its head with
    [response] still bound to page 2: page 2 is yielded a second time
    before the request is retried, and its entries are counted twice. *)
Theorem C2_retry_yields_page_two_again (fuel : nat) :
  _page_over_results Sample.flaky_service Sample.conf (5 + fuel)
    (request_body Sample.conf) [] =
    Some ([Logging.Request (request_body Sample.conf);
           Logging.Request (set_pageToken (request_body Sample.conf) "p2");
           Logging.Request (set_pageToken (request_body Sample.conf) "p3");
           Logging.Sleep 100;
           Logging.Request (set_pageToken (request_body Sample.conf) "p3")],
          [Sample.page1; Sample.page2; Sample.page2; Sample.page3], None) ∧
  (λ r, r.1.2) <$> _retrieve_records Sample.flaky_service Sample.conf (5 + fuel) [] =
    Some [Sample.alice; Sample.bob; Sample.bob; Sample.carol] ∧
  (λ r, (r.2, Dict.getitem (table_usage_counts r.1.2) (Sample.key "bob@co" "t1")))
    <$> _count_usage (H := Re.literal_compiler) Sample.flaky_service Sample.conf
          (5 + fuel) [] ∅ =
    Some (Next (), Ok 2).
Proof.
  assert (_page_over_results Sample.flaky_service Sample.conf (5 + fuel)
            (request_body Sample.conf) [] =
          Some ([Logging.Request (request_body Sample.conf);
                 Logging.Request (set_pageToken (request_body Sample.conf) "p2");
                 Logging.Request (set_pageToken (request_body Sample.conf) "p3");
                 Logging.Sleep 100;
                 Logging.Request (set_pageToken (request_body Sample.conf) "p3")],
                [Sample.page1; Sample.page2; Sample.page2; Sample.page3], None))
    as Hpages.
  { apply _page_over_results_fuel. by vm_compute. }
  split; [done|].
  unfold _count_usage, _retrieve_records. rewrite Hpages. by vm_compute.
Qed.

(** Without the failure the same three pages come out once each. *)
Example steady_pages_once :
  (λ r, r.1.2) <$> _page_over_results Sample.steady_service Sample.conf 5
                     (request_body Sample.conf) [] =
  Some [Sample.page1; Sample.page2; Sample.page3].
Proof. by vm_compute. Qed.

(** C3: a qualifying entry with K referenced tables ends normally and
    leaves the dict with exactly K increments, one for the key of each
    (projectId, datasetId, tableId) triple, with database 'bigquery',
    column '*' and the entry's principalEmail; the sum of the counts grows
    by K. *)
Theorem C3_qualifying_entry_counts_each_table `{Re.Compiler} (self : Conf)
    (entry : json) (principal : string)
    (refs : list (string * string * string)) (total : json) (s : Env) :
  pagesize self ≠ 0 →
  qualifying self entry principal refs total →
  let keys :=
    (λ ref, {| database := JStr "bigquery"; cluster := JStr ref.1.1;
               schema := JStr ref.1.2; table := JStr ref.2;
               column := JStr "*"; email := JStr principal |}) <$> refs in
  let s' := (loop_body self entry s).1 in
  (loop_body self entry s).2 = Next () ∧
  table_usage_counts s' = foldl increment (table_usage_counts s) keys ∧
  length keys = length refs ∧
  Dict.total (table_usage_counts s') =
    Dict.total (table_usage_counts s) + Z.of_nat (length refs).
Proof.
  intros Hnz Hq keys s'. subst keys s'.
  rewrite (qualifying_loop_body self entry principal refs total s Hnz Hq).
  simpl. split_and!; [done|done|by rewrite length_fmap|].
  apply total_foldl_usage_keys.
Qed.

Lemma carol_qualifies (R : Re.Compiler) :
  qualifying Sample.conf Sample.carol "carol@co"
    [("proj", "ds", "t1"); ("proj", "ds", "t2")] (JNum 2).
Proof.
  split; [|done].
  by eapply (Eligible _ _ _ _ _ _ _ [Sample.t1; Sample.t2]);
    [done..|by eexists|repeat constructor|].
Qed.

Lemma C3_qualifying_entry_counts_each_table_witness :
  table_usage_counts
    (loop_body (H := Re.literal_compiler) Sample.conf Sample.carol Sample.start).1 =
  foldl increment ∅ [Sample.key "carol@co" "t1"; Sample.key "carol@co" "t2"].
Proof.
  apply (C3_qualifying_entry_counts_each_table (H := Re.literal_compiler)
           Sample.conf Sample.carol "carol@co"
           [("proj", "ds", "t1"); ("proj", "ds", "t2")] (JNum 2) Sample.start).
  - done.
  - apply carol_qualifies.
Defined.

(** An entry that reaches the loop over the tables passes the filters of
    the specification; so one that does not pass leaves the dict alone. *)
Lemma not_passing_leaves_dict `{Re.Compiler} (self : Conf) (entry : json) (s : Env) :
  passing self entry = None →
  table_usage_counts (loop_body self entry s).1 = table_usage_counts s.
Proof.
  intros Hpass. destruct (decide (pagesize self = 0)) as [Hz|Hnz].
  { by rewrite loop_body_zero. }
  rewrite loop_body_run by done.
  destruct (count_entry_run self entry)
    as [(out & Hrun & _)|(email & tables & ws & Hsome & _)]; [|congruence].
  by rewrite Hrun.
Qed.

Lemma ne_str_false v s : Py.ne_str v s = false → v = JStr s.
Proof.
  destruct v as [| | |s'| |]; simpl; try done.
  intros Hs. apply negb_false_iff, String.eqb_eq in Hs. by subst.
Qed.

(** C5: an entry whose job state is not "DONE", or whose error set is
    non-empty, or whose referenced tables are absent or empty, leaves the
    usage counts exactly as they were, whatever its other fields hold. *)
Theorem C5_filtered_entry_counts_nothing `{Re.Compiler} (self : Conf)
    (entry : json) (s : Env) :
  job_state entry ≠ Some (JStr "DONE") ∨
  (∃ error n, job_error entry = Some error ∧ Py.len error = Ok n ∧ 0 < n) ∨
  referenced_tables entry = None ∨
  (∃ refTables, referenced_tables entry = Some refTables ∧
                Py.truthy refTables = false) →
  table_usage_counts (loop_body self entry s).1 = table_usage_counts s.
Proof.
  intros Hcase. apply not_passing_leaves_dict. unfold passing.
  destruct (job_state entry) as [state|] eqn:Hstate; simpl; [|done].
  destruct (Py.ne_str state "DONE") eqn:Hdone; [done|].
  apply ne_str_false in Hdone as ->.
  destruct Hcase as [Hstate'|[(error & n & Herr & Hlen & Hn)|[Hrefs|(r & Hrefs & Hr)]]].
  - done.
  - rewrite Herr. simpl. rewrite Hlen. by destruct n.
  - rewrite Hrefs. destruct (Py.len _) as [[| |]|]; try done.
    by destruct (principal_email entry).
  - rewrite Hrefs. destruct (Py.len _) as [[| |]|]; try done.
    destruct (principal_email entry); [|done]. simpl. by rewrite Hr.
Qed.

Lemma C5_filtered_entry_counts_nothing_witness :
  job_state (Sample.entry_of "alice@co"
               (Sample.job "job_r" (JObj [("state", JStr "RUNNING")])
                  (Sample.statistics [Sample.t1] 1)))
    ≠ Some (JStr "DONE") ∧
  table_usage_counts
    (loop_body (H := Re.literal_compiler) Sample.conf
       (Sample.entry_of "alice@co"
          (Sample.job "job_r" (JObj [("state", JStr "RUNNING")])
             (Sample.statistics [Sample.t1] 1)))
       Sample.start).1 = ∅.
Proof.
  split; [done|].
  apply (C5_filtered_entry_counts_nothing (H := Re.literal_compiler)
           Sample.conf _ Sample.start).
  by left.
Defined.

(** C6: with a non-empty email pattern configured, an entry that is
    otherwise eligible is counted if and only if some leading part of its
    principal email is a word of the pattern; the whole email need not be.
    An entry whose email has no such leading part is discarded and counts
    nothing. *)
Theorem C6_email_filter_is_leading_match `{Re.Compiler} (self : Conf)
    (pattern : string) (r : Re.regex) (entry : json) (principal : string)
    (refs : list (string * string * string)) (total : json) (s : Env) :
  pagesize self ≠ 0 →
  email_pattern self = Some pattern →
  pattern ≠ "" →
  Re.compile pattern = Some r →
  eligible entry principal refs total →
  let s' := (loop_body self entry s).1 in
  (leading_match r principal →
     (loop_body self entry s).2 = Next () ∧
     table_usage_counts s' =
       foldl increment (table_usage_counts s) (usage_key principal <$> refs)) ∧
  (¬ leading_match r principal →
     (loop_body self entry s).2 = Continue ∧
     table_usage_counts s' = table_usage_counts s) ∧
  (leading_match r principal ↔
     Dict.total (table_usage_counts s') ≠ Dict.total (table_usage_counts s)).
Proof.
  intros Hnz Hp Hne Hr Hel s'. subst s'.
  rewrite loop_body_run by done.
  rewrite (eligible_count_entry self entry principal refs total
             (if Re.match_word r (list_ascii_of_string principal)
              then Next () else Continue) Hel);
    [|intros s0; by apply (email_filter_pattern self pattern)].
  unfold leading_match.
  rewrite <-ReFacts.match_word_lang.
  destruct (Re.match_word r _); simpl.
  - rewrite total_foldl_usage_keys.
    assert (length refs ≠ 0%nat) by (destruct Hel; by destruct refs).
    split_and!; [done|done|]. split; [lia|done].
  - split_and!; [done|done|]. split; [done|]. by intros [].
Qed.

Lemma alice_eligible :
  eligible Sample.alice "alice@co" [("proj", "ds", "t1")] (JNum 1).
Proof.
  by eapply (Eligible _ _ _ _ _ _ _ [Sample.t1]);
    [done..|by eexists|repeat constructor|].
Qed.

Lemma C6_email_filter_is_leading_match_witness :
  Re.fullmatch_word (Re.literal (list_ascii_of_string "alice"))
    (list_ascii_of_string "alice@co") = false ∧
  (leading_match (Re.literal (list_ascii_of_string "alice")) "alice@co" ↔
   Dict.total
     (table_usage_counts
        (loop_body (H := Re.literal_compiler) Sample.conf_alice Sample.alice
           Sample.start).1)
   ≠ Dict.total (table_usage_counts Sample.start)).
Proof.
  split; [done|].
  apply (C6_email_filter_is_leading_match (H := Re.literal_compiler)
           Sample.conf_alice "alice" _ Sample.alice "alice@co"
           [("proj", "ds", "t1")] (JNum 1) Sample.start).
  - done.
  - done.
  - done.
  - done.
  - apply alice_eligible.
Defined.

(** C7: a qualifying entry whose number of referenced tables differs
    from its totalTablesProcessed is not discarded: a warning naming the
    job is written and every listed table still gets its increment. *)
Theorem C7_table_count_mismatch_warns_and_counts `{Re.Compiler} (self : Conf)
    (entry : json) (principal : string)
    (refs : list (string * string * string)) (total : json) (s : Env) :
  pagesize self ≠ 0 →
  qualifying self entry principal refs total →
  Py.int_ne (Z.of_nat (length refs)) total = true →
  ∃ job_id,
    Py.subscripts entry
      ["protoPayload"; "serviceData"; "jobCompletedEvent"; "job"; "jobName"; "jobId"]
      = Ok job_id ∧
    loop_body self entry s =
      ({| count := count s + 1;
          table_usage_counts :=
            foldl increment (table_usage_counts s) (usage_key principal <$> refs);
          LOGGER := (LOGGER (progress self s) ++ [Warn job_id])%list |},
       Next ()) ∧
    Dict.total (foldl increment (table_usage_counts s) (usage_key principal <$> refs))
      = Dict.total (table_usage_counts s) + Z.of_nat (length refs).
Proof.
  intros Hnz Hq Hne.
  destruct (eligible_job_id entry principal refs total (proj1 Hq) Hne)
    as (job_id & Hid & Hwarn).
  exists job_id.
  rewrite (qualifying_loop_body self entry principal refs total s Hnz Hq), Hwarn.
  split_and!; [done|done|]. apply total_foldl_usage_keys.
Qed.

Lemma short_list_qualifies (R : Re.Compiler) :
  qualifying Sample.conf Sample.short_list "alice@co" [("proj", "ds", "t1")] (JNum 2).
Proof.
  split; [|done].
  by eapply (Eligible _ _ _ _ _ _ _ [Sample.t1]);
    [done..|by eexists|repeat constructor|].
Qed.

Lemma C7_table_count_mismatch_warns_and_counts_witness :
  ∃ job_id,
    Py.subscripts Sample.short_list
      ["protoPayload"; "serviceData"; "jobCompletedEvent"; "job"; "jobName"; "jobId"]
      = Ok job_id ∧
    loop_body (H := Re.literal_compiler) Sample.conf Sample.short_list Sample.start =
      ({| count := 1;
          table_usage_counts := foldl increment ∅ [Sample.key "alice@co" "t1"];
          LOGGER := [Warn job_id] |}, Next ()) ∧
    Dict.total (foldl increment ∅ [Sample.key "alice@co" "t1"]) = Dict.total ∅ + 1.
Proof.
  apply (C7_table_count_mismatch_warns_and_counts (H := Re.literal_compiler)
           Sample.conf Sample.short_list "alice@co" [("proj", "ds", "t1")]
           (JNum 2) Sample.start).
  - done.
  - apply short_list_qualifies.
  - done.
Defined.

(** The dict [init] builds stores every key under its own class. *)
Lemma count_records_well_keyed `{Re.Compiler} (self : Conf) (records : list json)
    (s : Env) :
  well_keyed (table_usage_counts s) →
  well_keyed (table_usage_counts (count_records self records s).1).
Proof.
  revert s. induction records as [|entry records IH]; intros s Hs; [done|].
  assert (well_keyed (table_usage_counts (loop_body self entry s).1)) as Hs'.
  { destruct (loop_body_usage self entry s) as [keys ->].
    by apply well_keyed_foldl. }
  rewrite count_records_cons. destruct (outcome self entry); by try apply IH.
Qed.

Lemma init_inv `{Re.Compiler} (logging_service : Logging.Service) (self : Conf)
    (fuel : nat) (t t' : list Logging.event) (me : Self.t) :
  init logging_service self fuel t = Some (t', Ok me) →
  ∃ records,
    _retrieve_records logging_service self fuel t = Some (t', records, None) ∧
    (count_records self records
       {| count := 0; table_usage_counts := ∅; LOGGER := [] |}).2 = Next () ∧
    Self.table_usage_counts me =
      table_usage_counts
        (count_records self records
           {| count := 0; table_usage_counts := ∅; LOGGER := [] |}).1 ∧
    Self.iter me = Dict.iter (Self.table_usage_counts me).
Proof.
  unfold init, _count_usage.
  destruct (_retrieve_records _ _ _ _) as [[[t1 records] [e|]]|]; simpl; [done| |done].
  intros Hinit. exists records.
  pose proof (count_records_next self records
                {| count := 0; table_usage_counts := ∅; LOGGER := [] |}) as Hnext.
  destruct (count_records self records _) as [s' out] eqn:Hrun. simpl in *.
  assert (out ≠ Continue) as Hc.
  { intros ->. clear Hnext Hinit. revert Hrun.
    generalize {| count := 0; table_usage_counts := ∅; LOGGER := [] |}.
    induction records as [|entry records IH]; intros s0; [done|].
    rewrite count_records_cons. destruct (outcome self entry); by eauto. }
  destruct out as [[]| |e]; [|done|done]. by simplify_eq.
Qed.

(** C4: after [init], the successive calls of [extract()] return the
    (key, count) pairs of the dict, each pair once, and from then on
    every call returns [None]; no call raises, and the dict stays as
    built. *)
Theorem C4_extract_returns_each_pair_once `{Re.Compiler}
    (logging_service : Logging.Service) (self : Conf) (fuel : nat)
    (t t' : list Logging.event) (me : Self.t) (n : nat) :
  init logging_service self fuel t = Some (t', Ok me) →
  let pairs := Dict.items (Self.table_usage_counts me) in
  (extract_calls (length pairs + n) me).2 =
    (((λ kv, Ok (Some kv)) <$> pairs) ++ replicate n (Ok None))%list ∧
  NoDup pairs ∧
  (∀ kv, kv ∈ pairs ↔ ∃ h, Self.table_usage_counts me !! h = Some kv) ∧
  Self.table_usage_counts (extract_calls (length pairs + n) me).1 =
    Self.table_usage_counts me.
Proof.
  intros Hinit pairs.
  destruct (init_inv _ _ _ _ _ _ Hinit) as (records & _ & _ & Hd & Hiter).
  assert (well_keyed (Self.table_usage_counts me)) as Hwk.
  { rewrite Hd. by apply count_records_well_keyed. }
  split_and!.
  - destruct me as [d it]. simpl in *. subst it.
    unfold Dict.iter. fold pairs. rewrite extract_calls_items; [done|].
    apply Forall_forall. intros kv Hkv. by apply well_keyed_items.
  - by apply NoDup_items.
  - intros kv. unfold pairs, Dict.items. rewrite list_elem_of_fmap. split.
    + intros ([h kv'] & -> & Hin). exists h. by apply elem_of_map_to_list.
    + intros [h Hl]. exists (h, kv). split; [done|]. by apply elem_of_map_to_list.
  - apply extract_calls_dict.
Qed.

Lemma steady_count_usage :
  _count_usage (H := Re.literal_compiler) Sample.steady_service Sample.conf 5 [] ∅ =
    Some (Sample.requests Sample.conf, Sample.built, Next ()).
Proof.
  unfold _count_usage.
  assert (_retrieve_records Sample.steady_service Sample.conf 5 [] =
          Some (Sample.requests Sample.conf,
                [Sample.alice; Sample.bob; Sample.carol], None)) as ->
    by by vm_compute.
  cbv beta iota delta [mbind option_bind].
  assert ((count_records (H := Re.literal_compiler) Sample.conf
             [Sample.alice; Sample.bob; Sample.carol] Sample.start).2 = Next ())
    as Hout by by vm_compute.
  unfold Sample.built. fold Sample.start.
  destruct (count_records _ _ _) as [s out]. simpl in Hout. by subst out.
Qed.

Lemma steady_init :
  init (H := Re.literal_compiler) Sample.steady_service Sample.conf 5 [] =
    Some (Sample.requests Sample.conf, Ok Sample.extractor).
Proof. unfold init. by rewrite steady_count_usage. Qed.

Lemma C4_extract_returns_each_pair_once_witness :
  init (H := Re.literal_compiler) Sample.steady_service Sample.conf 5 [] =
    Some (Sample.requests Sample.conf, Ok Sample.extractor) ∧
  (extract_calls
     (length (Dict.items (Self.table_usage_counts Sample.extractor)) + 2)
     Sample.extractor).2 =
    (((λ kv, Ok (Some kv)) <$> Dict.items (Self.table_usage_counts Sample.extractor))
     ++ [Ok None; Ok None])%list.
Proof.
  split; [apply steady_init|].
  eapply (C4_extract_returns_each_pair_once (H := Re.literal_compiler)
            Sample.steady_service Sample.conf 5 [] _ _ 2).
  apply steady_init.
Defined.

(** On that run the four pairs come out in four calls, and the fifth and
    sixth return [None]. *)
Example steady_extract :
  length (Dict.items (Self.table_usage_counts Sample.extractor)) = 4%nat ∧
  drop 4 (extract_calls 6 Sample.extractor).2 = [Ok None; Ok None].
Proof. by vm_compute. Qed.

Lemma key_classes_app keys keys' :
  key_classes (keys ++ keys') = (key_classes keys ++ key_classes keys')%list.
Proof. apply omap_app. Qed.

Lemma key_classes_flat_map_permutation `{Re.Compiler} (self : Conf)
    (records records' : list json) :
  records ≡ₚ records' →
  key_classes (flat_map (references self) records) ≡ₚ
  key_classes (flat_map (references self) records').
Proof.
  induction 1 as [|entry l l' _ IH|x y l|l l' l'' _ IH1 _ IH2]; simpl.
  - done.
  - rewrite !key_classes_app. by f_equiv.
  - rewrite !key_classes_app, !(assoc_L (++)). f_equiv. apply Permutation_app_comm.
  - by etrans.
Qed.

(** C8: the final counts do not depend on the order of the entries. A
    run over a permutation of the records ends normally exactly when the
    run over the records does, and then both leave the same mapping from
    key classes to counts. *)
Theorem C8_counts_are_order_independent `{Re.Compiler} (self : Conf)
    (records records' : list json) (s : Env) :
  records ≡ₚ records' →
  ((count_records self records s).2 = Next () ↔
   (count_records self records' s).2 = Next ()) ∧
  ((count_records self records s).2 = Next () →
   Dict.counts (table_usage_counts (count_records self records' s).1) =
   Dict.counts (table_usage_counts (count_records self records s).1)).
Proof.
  intros Hperm.
  assert ((count_records self records s).2 = Next () ↔
          (count_records self records' s).2 = Next ()) as Hiff.
  { rewrite !count_records_next. by rewrite Hperm. }
  split; [done|]. intros Hnext.
  rewrite (count_records_counts self records s) by done.
  rewrite (count_records_counts self records' s) by by apply Hiff.
  rewrite !counts_foldl_increment.
  apply foldl_bump_permutation. symmetry.
  by apply key_classes_flat_map_permutation.
Qed.

Lemma C8_counts_are_order_independent_witness :
  [Sample.alice; Sample.bob; Sample.carol] ≡ₚ
  [Sample.carol; Sample.alice; Sample.bob] ∧
  Dict.counts
    (table_usage_counts
       (count_records (H := Re.literal_compiler) Sample.conf
          [Sample.carol; Sample.alice; Sample.bob] Sample.start).1) =
  Dict.counts
    (table_usage_counts
       (count_records (H := Re.literal_compiler) Sample.conf
          [Sample.alice; Sample.bob; Sample.carol] Sample.start).1).
Proof.
  assert ([Sample.alice; Sample.bob; Sample.carol] ≡ₚ
          [Sample.carol; Sample.alice; Sample.bob]) as Hperm.
  { symmetry. apply (Permutation_middle [Sample.alice; Sample.bob] [] Sample.carol). }
  split; [done|].
  apply (C8_counts_are_order_independent (H := Re.literal_compiler)
           Sample.conf _ _ Sample.start Hperm).
  by vm_compute.
Defined.

Lemma occurrences_classes h keys :
  occurrences h keys =
  Z.of_nat (length (List.filter (λ h', bool_decide (h' = h)) (key_classes keys))).
Proof.
  unfold occurrences, key_classes. f_equal.
  induction keys as [|key keys IH]; simpl; [done|].
  destruct (hash_key key) as [h'|]; simpl; [|done].
  destruct (bool_decide (h' = h)); simpl; by rewrite IH.
Qed.

Lemma occurrences_pos h keys : h ∈ key_classes keys → 0 < occurrences h keys.
Proof.
  intros Hin. rewrite occurrences_classes.
  assert (In h (List.filter (λ h', bool_decide (h' = h)) (key_classes keys))) as Hf.
  { apply List.filter_In. split; [by apply list_elem_of_In|].
    by apply bool_decide_eq_true_2. }
  destruct (List.filter _ _); [done|]. simpl. lia.
Qed.

(** C9: counts add up. After a run that ends normally, the count stored
    for a key is the number of references to its key class among the
    table references of all the qualifying entries of all the pages: a key
    referred to N > 0 times is stored with count N, a key never referred
    to is not stored. *)
Theorem C9_count_is_number_of_references `{Re.Compiler}
    (logging_service : Logging.Service) (self : Conf) (fuel : nat)
    (t t' : list Logging.event) (s' : Env) :
  _count_usage logging_service self fuel t ∅ = Some (t', s', Next ()) →
  ∃ records,
    _retrieve_records logging_service self fuel t = Some (t', records, None) ∧
    ∀ key h,
      hash_key key = Ok h →
      let N := occurrences h (flat_map (references self) records) in
      Dict.get (table_usage_counts s') key 0 = Ok N ∧
      (0 < N → ∃ key', table_usage_counts s' !! h = Some (key', N)) ∧
      (N = 0 → table_usage_counts s' !! h = None).
Proof.
  unfold _count_usage.
  destruct (_retrieve_records _ _ _ _) as [[[t1 records] [e|]]|]; simpl; [done| |done].
  destruct (count_records self records _) as [s1 out] eqn:Hrun.
  intros [= -> -> ->]. exists records. split; [done|].
  intros key h Hh.
  set (N := occurrences h (flat_map (references self) records)).
  pose proof (count_records_counts self records
                {| count := 0; table_usage_counts := ∅; LOGGER := [] |}) as Hd.
  rewrite Hrun in Hd. simpl in Hd. specialize (Hd eq_refl).
  assert (Dict.counts (table_usage_counts s') =
          foldl (flip bump) ∅ (key_classes (flat_map (references self) records)))
    as Hcounts.
  { rewrite Hd, counts_foldl_increment. unfold Dict.counts. by rewrite fmap_empty. }
  pose proof (foldl_bump_default
                (key_classes (flat_map (references self) records)) ∅ h) as Hdef.
  pose proof (foldl_bump_None
                (key_classes (flat_map (references self) records)) ∅ h) as Hnone.
  rewrite <-Hcounts, <-occurrences_classes in Hdef. fold N in Hdef.
  rewrite <-Hcounts in Hnone. unfold Dict.counts in Hdef, Hnone.
  rewrite lookup_fmap, lookup_empty in Hdef, Hnone. simpl in Hdef.
  unfold Dict.get. rewrite Hh. simpl.
  destruct (table_usage_counts s' !! h) as [[key' c]|] eqn:Hl; simpl in *.
  - assert (c = N) as -> by lia. split_and!; [done|by eauto|].
    intros HN. exfalso.
    destruct (decide (h ∈ key_classes (flat_map (references self) records)))
      as [Hin|Hnin].
    + apply occurrences_pos in Hin. fold N in Hin. lia.
    + by destruct Hnone as [_ Hn]; specialize (Hn (conj eq_refl Hnin)).
  - split_and!; [f_equal; lia | lia | done].
Qed.

Lemma C9_count_is_number_of_references_witness :
  _count_usage (H := Re.literal_compiler) Sample.steady_service Sample.conf 5 [] ∅ =
    Some (Sample.requests Sample.conf, Sample.built, Next ()) ∧
  Dict.get (table_usage_counts Sample.built) (Sample.key "alice@co" "t1") 0 = Ok 1.
Proof.
  split; [apply steady_count_usage|].
  destruct (C9_count_is_number_of_references (H := Re.literal_compiler)
              Sample.steady_service Sample.conf 5 [] _ _ steady_count_usage)
    as (records & Hrecords & Hcount).
  assert (_retrieve_records Sample.steady_service Sample.conf 5 [] =
          Some (Sample.requests Sample.conf,
                [Sample.alice; Sample.bob; Sample.carol], None)) as Hsteady
    by by vm_compute.
  rewrite Hsteady in Hrecords. injection Hrecords as <-.
  apply (Hcount (Sample.key "alice@co" "t1") _ eq_refl).
Defined.

(** C10: no stored count is ever zero or negative. Whatever records the
    loop has run over, and whether it has ended or has been left by an
    exception, every key in the dict has a strictly positive count; and
    calls of [extract()] leave the dict as it is. *)
Theorem C10_stored_counts_are_positive `{Re.Compiler} (self : Conf)
    (records : list json) (me : Self.t) (n : nat) :
  positive_counts
    (table_usage_counts
       (count_records self records
          {| count := 0; table_usage_counts := ∅; LOGGER := [] |}).1) ∧
  (∀ email tables,
     positive_counts
       (table_usage_counts
          (for_ tables (count_table email)
             (count_records self records
                {| count := 0; table_usage_counts := ∅; LOGGER := [] |}).1).1)) ∧
  Self.table_usage_counts (extract_calls n me).1 = Self.table_usage_counts me.
Proof.
  assert (positive_counts
            (table_usage_counts
               (count_records self records
                  {| count := 0; table_usage_counts := ∅; LOGGER := [] |}).1))
    as Hpos.
  { apply count_records_positive. simpl. apply map_Forall_empty. }
  split_and!; [done| |apply extract_calls_dict].
  intros email tables. rewrite for_tables_run. simpl.
  by apply positive_counts_foldl.
Qed.

(** * Further properties of the code *)

(** ** The paginator *)

Section paging_more.
Context (logging_service : Logging.Service) (self : Conf).



(** X1: a failure of the first request is not retried: it reaches the
    caller of [init] as it is, after that one request and without a
    pause, whatever the fuel. *)
Theorem first_request_failure_is_fatal `{Re.Compiler} (fuel : nat)
    (t : list Logging.event) (e : exn) :
  logging_service t (request_body self) = Raise e →
  _page_over_results logging_service self fuel (request_body self) t =
    Some ((t ++ [Logging.Request (request_body self)])%list, [], Some e) ∧
  init logging_service self fuel t =
    Some ((t ++ [Logging.Request (request_body self)])%list, Raise e).
Proof.
  intros Hfail.
  unfold init, _count_usage, _retrieve_records, _page_over_results, execute.
  by rewrite Hfail.
Qed.



Lemma page_loop_served fuel body t r rs :
  served logging_service body t (r :: rs) →
  page_loop logging_service self (length (r :: rs) + 1 + fuel) body (Some r)
    (t ++ [Logging.Request body])%list =
    Some ((t ++ request_chain body (r :: rs))%list, List.filter has_entries (r :: rs)).
Proof.
  revert body t r. induction rs as [|r' rs IH]; intros body t r Hserved.
  - inversion Hserved as [? ? ? Hr Htok|? ? ? ? ? Hr Htok Hrest]; subst;
      [|inversion Hrest].
    simpl. rewrite Htok. unfold has_entries.
    by destruct (Logging.entries r).
  - inversion Hserved as [|? ? ? tok ? Hr Htok Hrest]; subst.
    assert (logging_service (t ++ [Logging.Request body])%list
              (set_pageToken body tok) = Ok r') as Hr'
      by (by inversion Hrest).
    change (length (r :: r' :: rs) + 1 + fuel)%nat
      with (S (length (r' :: rs) + 1 + fuel)).
    cbn [page_loop]. rewrite Htok. unfold execute. rewrite Hr'.
    rewrite (IH _ _ _ Hrest). cbn [request_chain]. rewrite Htok.
    cbn [mbind option_bind]. unfold has_entries at 2. cbn [List.filter].
    rewrite <-(assoc_L (++)).
    by destruct (Logging.entries r).
Qed.

(** X4: against a service that does not fail, the paginator sends one
    request per page and no more, never pauses, and [_retrieve_records]
    yields the entries of every page once, in the order of the pages; a
    page without the [entries] key is passed over. *)
Theorem served_pages_are_read_once (fuel : nat) (t : list Logging.event)
    (rs : list Logging.Response) :
  served logging_service (request_body self) t rs →
  _page_over_results logging_service self (length rs + 1 + fuel)
    (request_body self) t =
    Some ((t ++ request_chain (request_body self) rs)%list,
          List.filter has_entries rs, None) ∧
  _retrieve_records logging_service self (length rs + 1 + fuel) t =
    Some ((t ++ request_chain (request_body self) rs)%list,
          flat_map (λ page, default [] (Logging.entries page)) rs, None) ∧
  length (request_chain (request_body self) rs) = length rs.
Proof.
  intros Hserved.
  assert (_page_over_results logging_service self (length rs + 1 + fuel)
            (request_body self) t =
          Some ((t ++ request_chain (request_body self) rs)%list,
                List.filter has_entries rs, None)) as Hpages.
  { destruct rs as [|r rs]; [inversion Hserved|].
    unfold _page_over_results, execute.
    assert (logging_service t (request_body self) = Ok r) as ->
      by (by inversion Hserved).
    by rewrite (page_loop_served fuel _ _ _ _ Hserved). }
  split_and!; [done| |].
  - unfold _retrieve_records. rewrite Hpages. cbn [mbind option_bind].
    do 2 f_equal. f_equal. clear.
    induction rs as [|r rs IH]; [done|]. simpl. unfold has_entries at 1.
    destruct (Logging.entries r) eqn:He; simpl; rewrite ?He, IH; done.
  - clear Hpages. induction Hserved as [? ? ? _ Htok|? ? ? ? ? _ Htok _ IH]; simpl;
      rewrite Htok; [done|]. by rewrite IH.
Qed.

Lemma page_loop_events fuel body0 body response t t' pages :
  Logging.resourceNames body = Logging.resourceNames body0 →
  Logging.pageSize body = Logging.pageSize body0 →
  Logging.filter body = Logging.filter body0 →
  page_loop logging_service self fuel body response t = Some (t', pages) →
  ∃ ext, t' = (t ++ ext)%list ∧
         Forall (paging_event self body0) ext ∧
         Forall (λ page, has_entries page = true) pages.
Proof.
  revert body response t t' pages.
  induction fuel as [|fuel IH]; intros body response t t' pages Hn Hs Hf; [done|].
  simpl. destruct response as [r|].
  2:{ intros [= <- <-]. exists []. by rewrite app_nil_r. }
  destruct (Logging.nextPageToken r) as [tok|] eqn:Htok.
  - unfold execute, sleep.
    destruct (logging_service t (set_pageToken body tok)) as [r'|e].
    + destruct (page_loop _ _ fuel _ _ _) as [[t1 pages1]|] eqn:Hloop; [|done].
      intros [= <- <-].
      destruct (IH (set_pageToken body tok) _ _ _ _ Hn Hs Hf Hloop)
        as (ext & -> & Hext & Hpages).
      exists (Logging.Request (set_pageToken body tok) :: ext).
      split; [by rewrite <-(assoc_L (++))|]. split.
      * constructor; [|done]. simpl. by eauto.
      * apply Forall_app. split; [|done]. unfold has_entries.
        destruct (Logging.entries r) eqn:He; [|done].
        constructor; [by rewrite He|done].
    + destruct (page_loop _ _ fuel _ _ _) as [[t1 pages1]|] eqn:Hloop; [|done].
      intros [= <- <-].
      destruct (IH (set_pageToken body tok) _ _ _ _ Hn Hs Hf Hloop)
        as (ext & -> & Hext & Hpages).
      exists (Logging.Request (set_pageToken body tok) ::
              Logging.Sleep (delay_time self) :: ext).
      split; [by rewrite <-!(assoc_L (++))|]. split.
      * constructor; [simpl; by eauto|]. by constructor.
      * apply Forall_app. split; [|done]. unfold has_entries.
        destruct (Logging.entries r) eqn:He; [|done].
        constructor; [by rewrite He|done].
  - destruct (page_loop _ _ fuel _ _ _) as [[t1 pages1]|] eqn:Hloop; [|done].
    intros [= <- <-].
    destruct (IH body _ _ _ _ Hn Hs Hf Hloop) as (ext & -> & Hext & Hpages).
    exists ext. split; [done|]. split; [done|].
    apply Forall_app. split; [|done]. unfold has_entries.
    destruct (Logging.entries r) eqn:He; [|done].
    constructor; [by rewrite He|done].
Qed.

(** X5: whatever the service does, a pagination that ends has sent the
    query of [request_body] first and then only requests that differ from
    it in the page token, has paused only for [delay_time], and has
    yielded only pages that carry [entries]. *)
Theorem pagination_keeps_the_query (fuel : nat) (t t' : list Logging.event)
    (pages : list Logging.Response) (e : option exn) :
  _page_over_results logging_service self fuel (request_body self) t =
    Some (t', pages, e) →
  ∃ ext,
    t' = (t ++ Logging.Request (request_body self) :: ext)%list ∧
    Forall (paging_event self (request_body self)) ext ∧
    Forall (λ page, has_entries page = true) pages.
Proof.
  unfold _page_over_results, execute.
  destruct (logging_service t (request_body self)) as [r|e0].
  - destruct (page_loop _ _ fuel _ _ _) as [[t1 pages1]|] eqn:Hloop; [|done].
    intros [= <- <- <-].
    destruct (page_loop_events _ (request_body self) _ _ _ _ _
                eq_refl eq_refl eq_refl Hloop) as (ext & -> & Hext & Hpages).
    exists ext. by rewrite <-(assoc_L (++)).
  - intros [= <- <- <-]. by exists [].
Qed.

End paging_more.

(** ** The loop of [_count_usage] *)

Section count_usage_more.
Context `{Re.Compiler} (self : Conf).

(** The pipeline leaves the record count alone and writes at most one
    record to the log, a warning. *)
Lemma count_entry_log entry :
  ∃ ws, (ws = [] ∨ ∃ job_id, ws = [Warn job_id]) ∧
        ∀ s, count (count_entry self entry s).1 = count s ∧
             LOGGER (count_entry self entry s).1 = (LOGGER s ++ ws)%list.
Proof.
  assert (∀ out : flow unit,
            ∃ ws, (ws = [] ∨ ∃ job_id, ws = [Warn job_id]) ∧
                  ∀ s : Env, count (s, out).1 = count s ∧
                             LOGGER (s, out).1 = (LOGGER s ++ ws)%list) as Hquiet.
  { intros out. exists []. split; [by left|]. intros s. simpl. by rewrite app_nil_r. }
  unfold count_entry.
  destruct (Py.subscripts entry [_; _; _; _]) as [job|]; run; [|apply Hquiet].
  rewrite !subscripts_two.
  destruct (Py.getitem job "jobStatus") as [jobStatus|]; run; [|apply Hquiet].
  destruct (Py.getitem jobStatus "state") as [state|]; run; [|apply Hquiet].
  destruct (Py.ne_str state "DONE"); [apply Hquiet|].
  destruct (Py.get jobStatus "error" (JObj [])) as [error|]; run; [|apply Hquiet].
  destruct (Py.len error) as [nerr|]; run; [|apply Hquiet].
  destruct (0 <? nerr); [apply Hquiet|].
  destruct (Py.subscripts entry [_; _; _]) as [email|]; run; [|apply Hquiet].
  destruct (Py.getitem job "jobStatistics") as [jobStatistics|]; run; [|apply Hquiet].
  destruct (Py.get jobStatistics "referencedTables" JNull) as [refTables|]; run;
    [|apply Hquiet].
  destruct (negb (Py.truthy refTables)); [apply Hquiet|].
  unfold email_filter.
  destruct (email_pattern self) as [pattern|];
    [destruct (String.eqb pattern "");
     [|destruct (Re.match_ pattern email) as [[|]|]]|];
    run; try apply Hquiet.
  all: destruct (Py.getitem jobStatistics "totalTablesProcessed") as [total|]; run;
    [|apply Hquiet].
  all: destruct (Py.len refTables) as [n|]; run; [|apply Hquiet].
  all: destruct (Py.int_ne n total).
  all: try (destruct (Py.getitem job "jobName") as [jobName|]; run; [|apply Hquiet];
            destruct (Py.getitem jobName "jobId") as [job_id|]; run; [|apply Hquiet];
            exists [Warn job_id]; split; [by eauto|]; intros s;
            destruct (Py.iter refTables) as [tables|]; [|done];
            by rewrite for_tables_run).
  all: destruct (Py.iter refTables) as [tables|]; [|apply Hquiet].
  all: exists []; split; [by left|]; intros s; rewrite for_tables_run; simpl.
  all: by rewrite app_nil_r.
Qed.


Lemma filter_is_info_warnings ws :
  ws = [] ∨ (∃ job_id, ws = [Warn job_id]) → List.filter is_info ws = [].
Proof. by intros [->|[job_id ->]]. Qed.

(** X7: in a run that ends normally every record is counted, and the
    progress message is written for exactly those records whose running
    number is a multiple of the page size, in order. *)
Theorem progress_is_reported_every_pagesize (records : list json) (s : Env) :
  (count_records self records s).2 = Next () →
  count (count_records self records s).1 = count s + Z.of_nat (length records) ∧
  List.filter is_info (LOGGER (count_records self records s).1) =
    (List.filter is_info (LOGGER s) ++
     (Info <$> List.filter (λ c, c `mod` pagesize self =? 0)
                 (seqZ (count s + 1) (Z.of_nat (length records)))))%list.
Proof.
  revert s. induction records as [|entry records IH]; intros s.
  { intros _. simpl. split; [lia|]. by rewrite app_nil_r. }
  rewrite count_records_next, Forall_cons. intros [Hentry Hrest].
  apply count_records_next with (s := (loop_body self entry s).1) in Hrest.
  rewrite count_records_cons.
  assert (pagesize self ≠ 0) as Hnz.
  { intros Hz. eapply Hentry. unfold outcome. by rewrite loop_body_zero. }
  assert (count (loop_body self entry s).1 = count s + 1 ∧
          List.filter is_info (LOGGER (loop_body self entry s).1) =
            (List.filter is_info (LOGGER s) ++
             if (count s + 1) `mod` pagesize self =? 0
             then [Info (count s + 1)] else [])%list) as [Hcount Hlog].
  { rewrite loop_body_run by done.
    destruct (count_entry_log entry) as (ws & Hws & Heffect).
    destruct (Heffect (progress self s)) as [-> ->]. simpl.
    rewrite !List.filter_app, (filter_is_info_warnings ws Hws), app_nil_r.
    split; [done|]. by destruct (_ =? 0). }
  destruct (IH _ Hrest) as [IHcount IHlog].
  assert (count (count_records self records (loop_body self entry s).1).1 =
          count s + Z.of_nat (length (entry :: records)) ∧
          List.filter is_info
            (LOGGER (count_records self records (loop_body self entry s).1).1) =
          (List.filter is_info (LOGGER s) ++
           (Info <$> List.filter (λ c, c `mod` pagesize self =? 0)
                       (seqZ (count s + 1)
                          (Z.of_nat (length (entry :: records))))))%list)
    as Hgoal.
  { rewrite IHcount, IHlog, Hcount, Hlog. split; [simpl length; lia|].
    rewrite (seqZ_cons (count s + 1)) by (simpl length; lia).
    replace (Z.pred (Z.of_nat (length (entry :: records))))
      with (Z.of_nat (length records)) by (simpl length; lia).
    replace (Z.succ (count s + 1)) with (count s + 1 + 1) by lia.
    rewrite <-(assoc_L (++)). f_equal. simpl.
    by destruct (_ =? 0). }
  destruct (outcome self entry) as [[]| |e]; [done|done|by destruct (Hentry e)].
Qed.

Lemma path_Some v ks x : path v ks = Some x → Py.subscripts v ks = Ok x.
Proof. unfold path. by destruct (Py.subscripts v ks); intros [= ->]. Qed.

(** X8: an entry whose job has a state other than "DONE", or is done
    with a non-empty error, is skipped without any exception, whatever
    else it lacks: the principal and the job statistics are not read. *)
Theorem unfinished_or_failed_job_is_skipped (entry state : json) (s : Env) :
  pagesize self ≠ 0 →
  job_state entry = Some state →
  state ≠ JStr "DONE" ∨
  (∃ error n, job_error entry = Some error ∧ Py.len error = Ok n ∧ 0 < n) →
  loop_body self entry s = (progress self s, Continue).
Proof.
  intros Hnz Hstate Hcase. rewrite loop_body_run by done.
  unfold job_state, job_error, job_of in *.
  destruct (path entry _) as [job|] eqn:Hjob; [|done]. simpl in *.
  apply path_Some in Hjob, Hstate.
  unfold count_entry. rewrite Hjob. run. rewrite Hstate. run.
  destruct (Py.ne_str state "DONE") eqn:Hdone; [done|].
  apply ne_str_false in Hdone as ->.
  destruct Hcase as [Hne|(error & n & Herror & Hlen & Hn)]; [done|].
  apply path_Some in Herror. rewrite subscripts_two in Hstate, Herror.
  destruct (Py.getitem job "jobStatus") as [jobStatus|]; [|done]. run.
  simpl in Herror.
  destruct (getitem_dict _ _ _ Herror) as (kvs & -> & Hassoc).
  simpl. rewrite Hassoc. simpl. rewrite Hlen. run.
  apply Z.ltb_lt in Hn. by rewrite Hn.
Qed.

End count_usage_more.

Section count_usage_dict.
Context `{Re.Compiler} (self : Conf).

Lemma counted_keys_app email tables tables' :
  counted_keys email (tables ++ tables') =
    match (counted_keys email tables).2 with
    | None => ((counted_keys email tables).1 ++ (counted_keys email tables').1,
               (counted_keys email tables').2)
    | Some e => counted_keys email tables
    end%list.
Proof.
  induction tables as [|refTable tables IH]; simpl.
  - by destruct (counted_keys email tables').
  - destruct (_ ← table_key email refTable; _) as [key|e]; [|done].
    rewrite IH. destruct (counted_keys email tables) as [keys [e|]]; [done|].
    simpl. by destruct (counted_keys email tables').
Qed.

(** X9: the loop over the referenced tables does not undo what it has
    counted: when a table lacks an identifier, the tables before it have
    their increments, the exception leaves the loop, and the tables after
    it are not counted. *)
Theorem faulty_table_stops_the_count (principal : string)
    (tables : list json) (refs : list (string * string * string))
    (refTable : json) (rest : list json) (e : exn) (s : Env) :
  Forall2 table_names tables refs →
  table_key (JStr principal) refTable = Raise e →
  for_ (tables ++ refTable :: rest) (count_table (JStr principal)) s =
    (with_usage s
       (foldl increment (table_usage_counts s) (usage_key principal <$> refs)),
     Raised e).
Proof.
  intros Htables Hkey. rewrite for_tables_run, counted_keys_app.
  rewrite (counted_keys_names _ _ _ Htables). simpl. rewrite Hkey. simpl.
  by rewrite app_nil_r.
Qed.

(** The dict after an entry is the dict before it with the keys of some
    tables counted. *)
Lemma loop_body_counted entry s :
  ∃ email tables,
    table_usage_counts (loop_body self entry s).1 =
    foldl increment (table_usage_counts s) (counted_keys email tables).1.
Proof.
  destruct (decide (pagesize self = 0)) as [Hz|Hnz].
  - exists JNull, []. by rewrite loop_body_zero.
  - rewrite loop_body_run by done.
    destruct (count_entry_run self entry)
      as [(out & Hrun & _)|(email & tables & ws & _ & Hrun)]; rewrite Hrun.
    + by exists JNull, [].
    + exists email, tables. by rewrite for_tables_run.
Qed.

(** Every key the loop counts carries the tag, the wildcard and the
    principal it was given, and can be hashed. *)
Lemma counted_keys_tagged principal tables :
  Forall (λ key, database key = JStr "bigquery" ∧ column key = JStr "*" ∧
                 email key = principal ∧ ∃ h, hash_key key = Ok h)
    (counted_keys principal tables).1.
Proof.
  induction tables as [|refTable tables IH]; simpl; [done|].
  destruct (table_key principal refTable) as [key|] eqn:Hkey; simpl; [|done].
  destruct (hash_key key) as [h|] eqn:Hh; simpl; [|done].
  destruct (counted_keys principal tables) as [keys e]. simpl in *.
  constructor; [|done]. unfold table_key in Hkey.
  destruct (Py.getitem refTable "projectId"); [|done].
  destruct (Py.getitem refTable "datasetId"); [|done].
  destruct (Py.getitem refTable "tableId"); [|done].
  simpl in Hkey. injection Hkey as <-. by eauto.
Qed.

Lemma tagged_foldl d keys :
  tagged d →
  Forall (λ key, database key = JStr "bigquery" ∧ column key = JStr "*") keys →
  tagged (foldl increment d keys).
Proof.
  intros Hd Hkeys. revert d Hd.
  induction Hkeys as [|key keys Hkey _ IH]; intros d Hd; simpl; [done|].
  apply IH. unfold increment. destruct (hash_key key) as [h|]; [|done].
  apply map_Forall_insert_2; [|done]. simpl.
  destruct (d !! h) as [[key' c]|] eqn:Hl; simpl; [|done].
  by apply (Hd h (key', c)).
Qed.

Lemma count_records_tagged records s :
  tagged (table_usage_counts s) →
  tagged (table_usage_counts (count_records self records s).1).
Proof.
  revert s. induction records as [|entry records IH]; intros s Hs; [done|].
  assert (tagged (table_usage_counts (loop_body self entry s).1)) as Hs'.
  { destruct (loop_body_counted entry s) as (principal & tables & ->).
    apply tagged_foldl; [done|].
    eapply Forall_impl; [apply counted_keys_tagged|]. simpl. intuition. }
  rewrite count_records_cons. destruct (outcome self entry); by try apply IH.
Qed.

(** What a call of [extract()] returns is [None] or comes from a key of
    the iterator. *)
Lemma extract_calls_elem n (me : Self.t) r :
  r ∈ (extract_calls n me).2 →
  r = Ok None ∨
  ∃ key, key ∈ Self.iter me ∧
         r = (v ← Dict.getitem (Self.table_usage_counts me) key;
              mret (Some (key, v))).
Proof.
  revert me. induction n as [|n IH]; intros me; simpl.
  { intros Hin. by apply elem_of_nil in Hin. }
  unfold extract. destruct (Self.iter me) as [|key rest] eqn:Hiter.
  - specialize (IH me). destruct (extract_calls n me) as [me' rs]. simpl in *.
    rewrite Hiter in IH. intros [->|Hin]%elem_of_cons; [by left|]. by apply IH.
  - specialize (IH {| Self.table_usage_counts := Self.table_usage_counts me;
                      Self.iter := rest |}).
    destruct (extract_calls n _) as [me' rs]. simpl in *.
    intros [->|Hin]%elem_of_cons.
    + right. exists key. split; [apply elem_of_cons; by left|done].
    + destruct (IH Hin) as [->|(key' & Hkey' & ->)]; [by left|].
      right. exists key'. split; [apply elem_of_cons; by right|done].
Qed.

(** X10: every pair [extract()] returns after [init] has the database
    'bigquery', the column '*' and a strictly positive count. *)
Theorem extracted_pairs_are_tagged (logging_service : Logging.Service)
    (fuel : nat) (t t' : list Logging.event) (me : Self.t) (n : nat)
    (key : TableColumnUsageTuple) (c : Z) :
  init logging_service self fuel t = Some (t', Ok me) →
  Ok (Some (key, c)) ∈ (extract_calls n me).2 →
  database key = JStr "bigquery" ∧ column key = JStr "*" ∧ 0 < c.
Proof.
  intros Hinit Hin.
  destruct (init_inv _ _ _ _ _ _ Hinit) as (records & _ & _ & Hd & Hiter).
  assert (well_keyed (Self.table_usage_counts me)) as Hwk
    by (rewrite Hd; by apply count_records_well_keyed).
  assert (tagged (Self.table_usage_counts me)) as Htag
    by (rewrite Hd; by apply count_records_tagged).
  assert (positive_counts (Self.table_usage_counts me)) as Hpos
    by (rewrite Hd; apply count_records_positive; apply map_Forall_empty).
  destruct (extract_calls_elem _ _ _ Hin) as [|(key' & Hkey' & Hr)]; [done|].
  rewrite Hiter in Hkey'. unfold Dict.iter in Hkey'.
  apply list_elem_of_fmap in Hkey' as ([key'' c'] & Heq & Hitem).
  simpl in Heq. subst key'.
  pose proof (well_keyed_items _ _ Hwk Hitem) as Hget. simpl in Hget, Hr.
  rewrite Hget in Hr. simpl in Hr. injection Hr as -> ->.
  unfold Dict.items in Hitem.
  apply list_elem_of_fmap in Hitem as ([h kv] & Heq & Hitem).
  simpl in Heq. subst kv. apply elem_of_map_to_list in Hitem.
  destruct (Htag _ _ Hitem) as [Hdb Hcol].
  split_and!; [done|done|]. apply (Hpos _ _ Hitem).
Qed.

Lemma increment_keeps d key h key0 c :
  d !! h = Some (key0, c) →
  ∃ c', increment d key !! h = Some (key0, c') ∧ c ≤ c'.
Proof.
  intros Hl. unfold increment. destruct (hash_key key) as [h'|]; [|by eauto with lia].
  destruct (decide (h' = h)) as [->|Hne].
  - rewrite lookup_insert_eq, Hl. simpl. eexists. split; [done|lia].
  - rewrite lookup_insert_ne by done. eauto with lia.
Qed.

Lemma foldl_increment_keeps d keys h key0 c :
  d !! h = Some (key0, c) →
  ∃ c', foldl increment d keys !! h = Some (key0, c') ∧ c ≤ c'.
Proof.
  revert d c. induction keys as [|key keys IH]; intros d c Hl; simpl;
    [by eauto with lia|].
  destruct (increment_keeps d key h key0 c Hl) as (c1 & Hl1 & Hc1).
  destruct (IH _ _ Hl1) as (c2 & Hl2 & Hc2). exists c2. split; [done|lia].
Qed.

(** X11: during a run nothing is taken out of the dict: an entry that is
    stored stays stored under the same key object, and its count never
    goes down, whether the loop ends or is left by an exception. *)
Theorem stored_entries_only_grow (records : list json) (s : Env)
    (h : list pyhash) (key : TableColumnUsageTuple) (c : Z) :
  table_usage_counts s !! h = Some (key, c) →
  ∃ c', table_usage_counts (count_records self records s).1 !! h = Some (key, c') ∧
        c ≤ c'.
Proof.
  revert s c. induction records as [|entry records IH]; intros s c Hl;
    [by eauto with lia|].
  assert (∃ c1, table_usage_counts (loop_body self entry s).1 !! h = Some (key, c1) ∧
                c ≤ c1) as (c1 & Hl1 & Hc1).
  { destruct (loop_body_usage self entry s) as [keys ->].
    by apply foldl_increment_keeps. }
  rewrite count_records_cons.
  destruct (outcome self entry); [| |by eauto].
  all: destruct (IH _ _ Hl1) as (c2 & Hl2 & Hc2); exists c2; split; [done|lia].
Qed.

Lemma total_foldl_hashable d keys :
  Forall (λ key, ∃ h, hash_key key = Ok h) keys →
  Dict.total (foldl increment d keys) = Dict.total d + Z.of_nat (length keys).
Proof.
  intros Hkeys. revert d.
  induction Hkeys as [|key keys [h Hh] _ IH]; intros d; simpl; [lia|].
  rewrite IH, (total_increment _ _ _ Hh). lia.
Qed.

(** The references of an entry that does not raise can all be hashed. *)
Lemma references_hashable entry :
  (∀ e, outcome self entry ≠ Raised e) →
  Forall (λ key, ∃ h, hash_key key = Ok h) (references self entry).
Proof.
  intros Hout. unfold outcome in Hout.
  destruct (decide (pagesize self = 0)) as [Hz|Hnz].
  { rewrite loop_body_zero in Hout by done. by destruct (Hout ZeroDivisionError). }
  unfold references. rewrite loop_body_run in Hout by done.
  destruct (count_entry_run self entry)
    as [(out & Hrun & Hne & Hc)|(principal & tables & ws & Hpass & Hrun)];
    rewrite Hrun in Hout; simpl in Hout.
  - destruct out as [[]| |e]; [done| |by destruct (Hout e)]. by rewrite Hc.
  - rewrite Hpass. rewrite for_tables_run in Hout. simpl in Hout.
    destruct (counted_keys principal tables).2 as [e|] eqn:He;
      [by destruct (Hout e)|].
    rewrite <-(counted_keys_all _ _ He).
    eapply Forall_impl; [apply counted_keys_tagged|]. simpl. intuition.
Qed.

(** X12: in a run that ends normally the sum of all counts grows by the
    number of table references of the entries that pass the filters:
    every reference is counted once, none is lost. *)
Theorem total_is_number_of_references (records : list json) (s : Env) :
  (count_records self records s).2 = Next () →
  Dict.total (table_usage_counts (count_records self records s).1) =
    Dict.total (table_usage_counts s) +
    Z.of_nat (length (flat_map (references self) records)).
Proof.
  intros Hnext. rewrite count_records_counts by done.
  apply total_foldl_hashable.
  apply count_records_next in Hnext.
  induction Hnext as [|entry records Hentry _ IH]; simpl; [done|].
  apply Forall_app. split; [by apply references_hashable|done].
Qed.

(** X14: a run whose pages hold no entry builds an empty dict, and the
    first call of [extract()] already returns [None]; the page size is not
    consulted. *)
Theorem empty_run_extracts_nothing (logging_service : Logging.Service)
    (fuel : nat) (t t' : list Logging.event) :
  _retrieve_records logging_service self fuel t = Some (t', [], None) →
  init logging_service self fuel t =
    Some (t', Ok {| Self.table_usage_counts := ∅; Self.iter := [] |}) ∧
  extract {| Self.table_usage_counts := ∅; Self.iter := [] |} =
    ({| Self.table_usage_counts := ∅; Self.iter := [] |}, Ok None).
Proof.
  intros Hrecords. split; [|done].
  unfold init, _count_usage. rewrite Hrecords. cbn [mbind option_bind].
  simpl. unfold Dict.iter, Dict.items. by rewrite map_to_list_empty.
Qed.

(** X15: a pattern the regular-expression compiler rejects is not
    caught: the first eligible entry makes the run raise [re.error], and
    nothing of that entry is counted. *)
Theorem rejected_pattern_raises (pattern : string) (entry : json)
    (principal : string) (refs : list (string * string * string))
    (total : json) (s : Env) :
  pagesize self ≠ 0 →
  email_pattern self = Some pattern →
  pattern ≠ "" →
  Re.compile pattern = None →
  eligible entry principal refs total →
  loop_body self entry s = (progress self s, Raised re_error).
Proof.
  intros Hnz Hp Hne Hr Hel. rewrite loop_body_run by done.
  rewrite (eligible_count_entry self entry principal refs total (Raised re_error) Hel);
    [done|].
  intros s0. unfold email_filter, Re.match_. rewrite Hp, Hr.
  apply String.eqb_neq in Hne. by rewrite Hne.
Qed.

End count_usage_dict.

(** X13: an empty email pattern filters nothing: a run configured with it
    does, record for record, what a run without a pattern does. *)
Theorem empty_pattern_is_no_pattern `{Re.Compiler} (self : Conf)
    (records : list json) (s : Env) :
  email_pattern self = Some "" →
  count_records self records s = count_records (without_pattern self) records s.
Proof.
  intros Hp. revert s. induction records as [|entry records IH]; intros s; [done|].
  assert (loop_body self entry s = loop_body (without_pattern self) entry s) as Hbody.
  { unfold loop_body, count_entry, email_filter. simpl. by rewrite Hp. }
  unfold count_records in *. simpl. rewrite Hbody.
  destruct (loop_body (without_pattern self) entry s) as [s' [[]| |e]]; by try apply IH.
Qed.

(** ** The properties on sample runs *)

Lemma first_request_failure_is_fatal_witness :
  init (H := Re.literal_compiler) Scenario.down_service Sample.conf 0 [] =
    Some ([Logging.Request (request_body Sample.conf)], Raise HttpError).
Proof.
  apply (first_request_failure_is_fatal Scenario.down_service Sample.conf
           (H := Re.literal_compiler) 0 [] HttpError).
  reflexivity.
Defined.



Lemma gap_pages_served :
  served Scenario.gap_service (request_body Sample.conf) []
    [Sample.page1; Scenario.gap_page; Sample.page3].
Proof.
  eapply served_next; [reflexivity..|].
  eapply served_next; [reflexivity..|].
  by eapply served_last.
Qed.

Lemma served_pages_are_read_once_witness :
  _retrieve_records Scenario.gap_service Sample.conf (3 + 1 + 0) [] =
    Some ([Logging.Request (request_body Sample.conf);
           Logging.Request (set_pageToken (request_body Sample.conf) "p2");
           Logging.Request (set_pageToken (request_body Sample.conf) "p3")],
          [Sample.alice; Sample.carol], None).
Proof.
  apply (served_pages_are_read_once Scenario.gap_service Sample.conf 0 []
           [Sample.page1; Scenario.gap_page; Sample.page3]).
  apply gap_pages_served.
Defined.

Lemma pagination_keeps_the_query_witness :
  ∃ ext,
    [Logging.Request (request_body Sample.conf);
     Logging.Request (set_pageToken (request_body Sample.conf) "p2");
     Logging.Request (set_pageToken (request_body Sample.conf) "p3");
     Logging.Sleep 100;
     Logging.Request (set_pageToken (request_body Sample.conf) "p3")] =
      ([] ++ Logging.Request (request_body Sample.conf) :: ext)%list ∧
    Forall (paging_event Sample.conf (request_body Sample.conf)) ext ∧
    Forall (λ page, has_entries page = true)
      [Sample.page1; Sample.page2; Sample.page2; Sample.page3].
Proof.
  apply (pagination_keeps_the_query Sample.flaky_service Sample.conf 5 []
           [Logging.Request (request_body Sample.conf);
            Logging.Request (set_pageToken (request_body Sample.conf) "p2");
            Logging.Request (set_pageToken (request_body Sample.conf) "p3");
            Logging.Sleep 100;
            Logging.Request (set_pageToken (request_body Sample.conf) "p3")]
           [Sample.page1; Sample.page2; Sample.page2; Sample.page3] None).
  vm_compute. reflexivity.
Defined.



Lemma progress_is_reported_every_pagesize_witness :
  let run := count_records (H := Re.literal_compiler) Scenario.conf_two
               [Sample.alice; Sample.bob; Sample.carol] Sample.start in
  count run.1 = 3 ∧ List.filter is_info (LOGGER run.1) = [Info 2].
Proof.
  apply (progress_is_reported_every_pagesize (H := Re.literal_compiler)
           Scenario.conf_two [Sample.alice; Sample.bob; Sample.carol] Sample.start).
  vm_compute. reflexivity.
Defined.

Lemma unfinished_or_failed_job_is_skipped_witness :
  loop_body (H := Re.literal_compiler) Sample.conf Scenario.running_anonymous
    Sample.start = (progress Sample.conf Sample.start, Continue).
Proof.
  apply (unfinished_or_failed_job_is_skipped (H := Re.literal_compiler)
           Sample.conf Scenario.running_anonymous (JStr "RUNNING") Sample.start).
  - discriminate.
  - reflexivity.
  - left. discriminate.
Defined.

Lemma faulty_table_stops_the_count_witness :
  for_ [Sample.t1; Scenario.nameless_table; Sample.t2]
    (count_table (JStr "alice@co")) Sample.start =
    (with_usage Sample.start (foldl increment ∅ [Sample.key "alice@co" "t1"]),
     Raised KeyError).
Proof.
  apply (faulty_table_stops_the_count "alice@co" [Sample.t1] [("proj", "ds", "t1")]
           Scenario.nameless_table [Sample.t2] KeyError Sample.start).
  - repeat constructor.
  - reflexivity.
Defined.

Lemma extracted_pairs_are_tagged_witness :
  database (Sample.key "alice@co" "t1") = JStr "bigquery" ∧
  column (Sample.key "alice@co" "t1") = JStr "*" ∧ 0 < 1.
Proof.
  apply (extracted_pairs_are_tagged (H := Re.literal_compiler) Sample.conf
           Sample.steady_service 5 [] (Sample.requests Sample.conf)
           Sample.extractor 4).
  - apply steady_init.
  - apply list_elem_of_In. vm_compute. intuition.
Defined.

Lemma stored_entries_only_grow_witness :
  ∃ c', table_usage_counts
          (count_records (H := Re.literal_compiler) Sample.conf [Sample.alice]
             Sample.built).1
          !! [HStr "bigquery"; HStr "proj"; HStr "ds"; HStr "t1"; HStr "*";
              HStr "alice@co"]
        = Some (Sample.key "alice@co" "t1", c') ∧ 1 ≤ c'.
Proof.
  apply (stored_entries_only_grow (H := Re.literal_compiler) Sample.conf
           [Sample.alice] Sample.built).
  vm_compute. reflexivity.
Defined.

Lemma total_is_number_of_references_witness :
  Dict.total
    (table_usage_counts
       (count_records (H := Re.literal_compiler) Sample.conf
          [Sample.alice; Sample.bob; Sample.carol] Sample.start).1) =
  Dict.total (table_usage_counts Sample.start) + 4.
Proof.
  apply (total_is_number_of_references (H := Re.literal_compiler) Sample.conf
           [Sample.alice; Sample.bob; Sample.carol] Sample.start).
  vm_compute. reflexivity.
Defined.

Lemma empty_pattern_is_no_pattern_witness :
  count_records (H := Re.literal_compiler) Scenario.conf_empty_pattern
    [Sample.alice; Sample.bob] Sample.start =
  count_records (H := Re.literal_compiler)
    (without_pattern Scenario.conf_empty_pattern)
    [Sample.alice; Sample.bob] Sample.start.
Proof.
  apply (empty_pattern_is_no_pattern (H := Re.literal_compiler)
           Scenario.conf_empty_pattern [Sample.alice; Sample.bob] Sample.start).
  reflexivity.
Defined.

Lemma empty_run_extracts_nothing_witness :
  init (H := Re.literal_compiler) Scenario.empty_service Sample.conf 2 [] =
    Some ([Logging.Request (request_body Sample.conf)],
          Ok {| Self.table_usage_counts := ∅; Self.iter := [] |}).
Proof.
  apply (empty_run_extracts_nothing (H := Re.literal_compiler) Sample.conf
           Scenario.empty_service 2 []
           [Logging.Request (request_body Sample.conf)]).
  vm_compute. reflexivity.
Defined.

Lemma rejected_pattern_raises_witness :
  loop_body (H := Scenario.rejecting_compiler) Sample.conf_alice Sample.alice
    Sample.start = (progress Sample.conf_alice Sample.start, Raised re_error).
Proof.
  apply (rejected_pattern_raises (H := Scenario.rejecting_compiler)
           Sample.conf_alice "alice" Sample.alice "alice@co"
           [("proj", "ds", "t1")] (JNum 1) Sample.start).
  - discriminate.
  - reflexivity.
  - discriminate.
  - reflexivity.
  - apply alice_eligible.
Defined.
